(** * A shallow embedding of the game client ([src/game.js])

    The file follows the source: the data the client keeps ([GameClient]),
    the browser facilities it talks to (canvas, web socket, timers, clock),
    then the methods of the class as functions on that state, and finally the
    properties of the client.

    Conventions of the embedding.
    - JavaScript numbers are taken as exact rationals ([Q]) in the state of
      the client.  [Math.max], [Math.min] and [Math.round] are [Qmax], [Qmin]
      and [fun q => Qfloor (q + 1/2)].  What depends on the rounding of IEEE
      doubles, the round trip of the two coordinate transforms, is stated on
      binary64 itself ([worldToScreen64], [screenToWorld64]).
    - A JavaScript [Map] is an association list in insertion order
      ([JsMap.t]); [Object.entries] of a JSON object is the list of its
      entries, whose keys are pairwise distinct.
    - Messages are the parsed, well-formed ones: ids and names are strings,
      coordinates are numbers, an avatar has its three frame lists.
    - Methods mutate [this]; here they take the state and return the new one.
      A method that can raise a [TypeError] returns a [Completion] next to
      the state, because the fields written before the exception keep their
      new values.
    - Time is the value of [Date.now()]; a timer fires at the time it is due.
    - [console.log] and [console.error], the life cycle of the connection
      ([connectToServer], [joinGame]), the keyboard listener and the [onload]
      of images are not modelled. *)

From Stdlib Require Import List String ZArith QArith Qround Qminmax Bool Lia Lqa Floats.
Import ListNotations.

Local Open Scope string_scope.
Local Open Scope Q_scope.

(** ** JavaScript [Map] *)

Module JsMap.
Section Ops.
Context {V : Type}.

Definition t : Type := list (string * V).

Definition empty : t := [].

(** [m.get(k)]: [None] stands for [undefined]. *)
Fixpoint get (k : string) (m : t) : option V :=
  match m with
  | [] => None
  | (k', v) :: rest => if String.eqb k k' then Some v else get k rest
  end.

Definition has (k : string) (m : t) : bool :=
  match get k m with Some _ => true | None => false end.

(** [m.set(k, v)]: an existing key keeps its place, a new one goes last. *)
Fixpoint set (k : string) (v : V) (m : t) : t :=
  match m with
  | [] => [(k, v)]
  | (k', v') :: rest =>
      if String.eqb k k' then (k, v) :: rest else (k', v') :: set k v rest
  end.

(** [m.delete(k)]. *)
Definition delete (k : string) (m : t) : t :=
  filter (fun e => negb (String.eqb k (fst e))) m.

Definition keys (m : t) : list string := map fst m.

(** [for (const [k, v] of entries) m.set(k, v)]. *)
Definition setAll (entries : list (string * V)) (m : t) : t :=
  fold_left (fun acc e => set (fst e) (snd e) acc) entries m.
End Ops.
Arguments t : clear implicits.
End JsMap.

(** ** Data model *)

(** An [Image] element, as far as the client looks at it. *)
Module Image.
Record t : Type := mk {
  src : string;
  complete : bool;
  width : Q;
  height : Q
}.
(** [const img = new Image(); img.src = data]: not loaded yet. *)
Definition create (data : string) : t := mk data false 0 0.
End Image.

(** The object literal [{north: .., south: .., east: ..}], used for the
    frames of an avatar as the server sends them and for its images. *)
Record Directional (A : Type) : Type := mkDirectional {
  north : list A;
  south : list A;
  east : list A
}.
Arguments mkDirectional {A}.
Arguments north {A}.
Arguments south {A}.
Arguments east {A}.

(** [obj[direction]]: any other property name is [undefined]. *)
Definition byDirection {A : Type} (obj : Directional A) (direction : string)
  : option (list A) :=
  if String.eqb direction "north" then Some (north obj)
  else if String.eqb direction "south" then Some (south obj)
  else if String.eqb direction "east" then Some (east obj)
  else None.

(** [['north', 'south', 'east'].forEach(direction => obj[direction].forEach(f))]
    collecting what [f] returns. *)
Definition mapDirectional {A B : Type} (f : A -> B) (obj : Directional A)
  : Directional B :=
  mkDirectional (map f (north obj)) (map f (south obj)) (map f (east obj)).

Module Player.
Record t : Type := mk {
  id : string;
  username : string;
  x : Q;
  y : Q;
  facing : string;
  avatar : string;
  animationFrame : option Z   (* [None]: the field is missing *)
}.
End Player.

(** The avatar as the server sends it: [{name, frames}]. *)
Record AvatarData : Type := mkAvatarData {
  data_name : string;
  frames : Directional string
}.

(** The avatar as [loadAvatarImage] stores it: [{name, images}]. *)
Record LoadedAvatar : Type := mkLoadedAvatar {
  avatar_name : string;
  images : Directional Image.t
}.

(** A value of [this.avatars]: the handlers first store the server's object
    and [loadAvatarImage] then replaces it. *)
Inductive Avatar : Type :=
| Raw (d : AvatarData)
| Loaded (a : LoadedAvatar).

(** A value of [this.playerEmotes]. *)
Record Emote : Type := mkEmote {
  emote_type : string;
  startTime : Z;
  duration : Z;
  bounces : Z
}.

(** Calls on the 2d context, in the order they are made. *)
Inductive CanvasOp : Type :=
| clearRect (x y w h : Q)
| drawImageSub (img : Image.t) (sx sy sw sh dx dy dw dh : Q)
| drawImage (img : Image.t) (dx dy dw dh : Q)
| save
| restore
| scale (sx sy : Q)
| strokeStyle (s : string)
| lineWidth (n : Q)
| fillStyle (s : string)
| font (s : string)
| textAlign (s : string)
| fillRect (x y w h : Q)
| fillText (s : string) (x y : Q)
| beginPath
| moveTo (x y : Q)
| lineTo (x y : Q)
| stroke.

Module Canvas.
Record t : Type := mk {
  width : Q;
  height : Q;
  ops : list CanvasOp
}.
End Canvas.

(** What goes out through [ws.send(JSON.stringify(message))]. *)
Inductive OutMessage : Type :=
| out_move_direction (direction : string)
| out_move_to (x y : Z).

Inductive ReadyState : Type := CONNECTING | OPEN | CLOSING | CLOSED.

Module WebSocket.
Record t : Type := mk {
  readyState : ReadyState;
  sent : list OutMessage
}.
End WebSocket.

(** The fields of [GameClient]. *)
Record GameClient : Type := mkGameClient {
  canvas : Canvas.t;
  worldImage : option Image.t;
  worldWidth : Q;
  worldHeight : Q;
  players : JsMap.t Player.t;
  avatars : JsMap.t Avatar;
  myPlayerId : option string;
  myPlayer : option Player.t;
  playerEmotes : JsMap.t Emote;
  cameraX : Q;
  cameraY : Q;
  viewportWidth : Q;
  viewportHeight : Q;
  ws : option WebSocket.t
}.

(** The state the constructor leaves before [init]. *)
Definition constructed (cv : Canvas.t) : GameClient :=
  {| canvas := cv; worldImage := None;
     worldWidth := 2048; worldHeight := 2048;
     players := JsMap.empty; avatars := JsMap.empty;
     myPlayerId := None; myPlayer := None;
     playerEmotes := JsMap.empty;
     cameraX := 0; cameraY := 0;
     viewportWidth := 0; viewportHeight := 0;
     ws := None |}.

(** Field updates. *)
Definition with_canvas (v : Canvas.t) (g : GameClient) : GameClient :=
  mkGameClient v (worldImage g) (worldWidth g) (worldHeight g) (players g)
    (avatars g) (myPlayerId g) (myPlayer g) (playerEmotes g) (cameraX g)
    (cameraY g) (viewportWidth g) (viewportHeight g) (ws g).
Definition with_worldImage (v : option Image.t) (g : GameClient) : GameClient :=
  mkGameClient (canvas g) v (worldWidth g) (worldHeight g) (players g)
    (avatars g) (myPlayerId g) (myPlayer g) (playerEmotes g) (cameraX g)
    (cameraY g) (viewportWidth g) (viewportHeight g) (ws g).
Definition with_players (v : JsMap.t Player.t) (g : GameClient) : GameClient :=
  mkGameClient (canvas g) (worldImage g) (worldWidth g) (worldHeight g) v
    (avatars g) (myPlayerId g) (myPlayer g) (playerEmotes g) (cameraX g)
    (cameraY g) (viewportWidth g) (viewportHeight g) (ws g).
Definition with_avatars (v : JsMap.t Avatar) (g : GameClient) : GameClient :=
  mkGameClient (canvas g) (worldImage g) (worldWidth g) (worldHeight g)
    (players g) v (myPlayerId g) (myPlayer g) (playerEmotes g) (cameraX g)
    (cameraY g) (viewportWidth g) (viewportHeight g) (ws g).
Definition with_myPlayerId (v : option string) (g : GameClient) : GameClient :=
  mkGameClient (canvas g) (worldImage g) (worldWidth g) (worldHeight g)
    (players g) (avatars g) v (myPlayer g) (playerEmotes g) (cameraX g)
    (cameraY g) (viewportWidth g) (viewportHeight g) (ws g).
Definition with_myPlayer (v : option Player.t) (g : GameClient) : GameClient :=
  mkGameClient (canvas g) (worldImage g) (worldWidth g) (worldHeight g)
    (players g) (avatars g) (myPlayerId g) v (playerEmotes g) (cameraX g)
    (cameraY g) (viewportWidth g) (viewportHeight g) (ws g).
Definition with_playerEmotes (v : JsMap.t Emote) (g : GameClient) : GameClient :=
  mkGameClient (canvas g) (worldImage g) (worldWidth g) (worldHeight g)
    (players g) (avatars g) (myPlayerId g) (myPlayer g) v (cameraX g)
    (cameraY g) (viewportWidth g) (viewportHeight g) (ws g).
Definition with_camera (cx cy : Q) (g : GameClient) : GameClient :=
  mkGameClient (canvas g) (worldImage g) (worldWidth g) (worldHeight g)
    (players g) (avatars g) (myPlayerId g) (myPlayer g) (playerEmotes g) cx
    cy (viewportWidth g) (viewportHeight g) (ws g).
Definition with_viewport (vw vh : Q) (g : GameClient) : GameClient :=
  mkGameClient (canvas g) (worldImage g) (worldWidth g) (worldHeight g)
    (players g) (avatars g) (myPlayerId g) (myPlayer g) (playerEmotes g)
    (cameraX g) (cameraY g) vw vh (ws g).
Definition with_ws (v : option WebSocket.t) (g : GameClient) : GameClient :=
  mkGameClient (canvas g) (worldImage g) (worldWidth g) (worldHeight g)
    (players g) (avatars g) (myPlayerId g) (myPlayer g) (playerEmotes g)
    (cameraX g) (cameraY g) (viewportWidth g) (viewportHeight g) v.

(** ** Viewport and coordinate transformation *)

Record Point : Type := mkPoint { px : Q; py : Q }.

(** [updateViewport]: clamp the camera to the world. *)
Definition updateViewport (g : GameClient) : GameClient :=
  with_camera
    (Qmax 0 (Qmin (cameraX g) (worldWidth g - viewportWidth g)))
    (Qmax 0 (Qmin (cameraY g) (worldHeight g - viewportHeight g)))
    g.

(** [centerViewportOnPlayer]. *)
Definition centerViewportOnPlayer (g : GameClient) : GameClient :=
  match myPlayer g with
  | None => g
  | Some p =>
      updateViewport
        (with_camera (Player.x p - viewportWidth g / 2)
                     (Player.y p - viewportHeight g / 2) g)
  end.

Definition worldToScreen (g : GameClient) (worldX worldY : Q) : Point :=
  {| px := worldX - cameraX g; py := worldY - cameraY g |}.

Definition screenToWorld (g : GameClient) (screenX screenY : Q) : Point :=
  {| px := screenX + cameraX g; py := screenY + cameraY g |}.

(** The same two methods on binary64, as the program computes them;
    [offsetX] and [offsetY] are [this.cameraX] and [this.cameraY]. *)
Definition worldToScreen64 (offsetX offsetY worldX worldY : float) : float * float :=
  (worldX - offsetX, worldY - offsetY)%float.

Definition screenToWorld64 (offsetX offsetY screenX screenY : float) : float * float :=
  (screenX + offsetX, screenY + offsetY)%float.

(** [screenToWorld(worldToScreen(worldX, worldY))]. *)
Definition roundTrip64 (offsetX offsetY worldX worldY : float) : float * float :=
  let s := worldToScreen64 offsetX offsetY worldX worldY in
  screenToWorld64 offsetX offsetY (fst s) (snd s).

(** [a === b] on numbers. *)
Definition sameDouble (a b : float) : Prop := PrimFloat.eqb a b = true.

(** The round trip gives back the world point. *)
Definition roundTripExact64 (offsetX offsetY worldX worldY : float) : Prop :=
  sameDouble (fst (roundTrip64 offsetX offsetY worldX worldY)) worldX /\
  sameDouble (snd (roundTrip64 offsetX offsetY worldX worldY)) worldY.

(** The double [n / 2], counted up from 0 in steps of 0.5. *)
Definition halfOf (n : nat) : float :=
  Nat.iter n (fun x => (x + 0.5)%float) 0%float.

(** The double of the integer [n], halved. *)
Definition halved (n : nat) : float :=
  (PrimFloat.of_uint63 (Uint63.of_Z (Z.of_nat n)) / 2)%float.

(** The round trip on one axis, and its test over the worlds
    [world, world + 0.5, ..] and the offsets [offset, offset + 0.5, ..]. *)
Definition axisExact (offset world : float) : bool :=
  PrimFloat.eqb ((world - offset) + offset)%float world.

Fixpoint worldsExact (n : nat) (world offset : float) : bool :=
  axisExact offset world &&
  match n with
  | O => true
  | S n' => worldsExact n' (world + 0.5)%float offset
  end.

Fixpoint offsetsExact (m n : nat) (offset : float) : bool :=
  worldsExact n 0%float offset &&
  match m with
  | O => true
  | S m' => offsetsExact m' n (offset + 0.5)%float
  end.

(** The world point (0.1, 0.1): 0.1 is the double [0x1.999999999999ap-4]. *)
Definition tenth : float := 0x1.999999999999ap-4%float.

(** ** Avatar loading *)

(** How a method ends: normally, or with an exception that the caller
    ([ws.onmessage]) catches. *)
Inductive Completion : Type :=
| Normal
| Threw (error : string).

(** [loadAvatarImage(avatarData)].  An object without [frames] (one that
    [loadAvatarImage] stored itself) makes [avatarData.frames[direction]]
    raise before anything is written. *)
Definition loadAvatarImage (avatarData : Avatar) (g : GameClient)
  : Completion * GameClient :=
  match avatarData with
  | Loaded _ => (Threw "TypeError", g)
  | Raw d =>
      let avatar :=
        mkLoadedAvatar (data_name d) (mapDirectional Image.create (frames d)) in
      (Normal, with_avatars (JsMap.set (data_name d) (Loaded avatar) (avatars g)) g)
  end.

(** [for (const [avatarName, avatarData] of this.avatars)
       this.loadAvatarImage(avatarData)].
    The iterator of a [Map] is live: it walks the entries by position and
    sees what the body stores.  [fuel] bounds the number of entries visited;
    [loadAvatarImages_total] below shows the bound is never reached. *)
Fixpoint loadAvatarImages_from (fuel i : nat) (g : GameClient)
  : option (Completion * GameClient) :=
  match fuel with
  | O => None
  | S fuel' =>
      match nth_error (avatars g) i with
      | None => Some (Normal, g)
      | Some (_, avatarData) =>
          match loadAvatarImage avatarData g with
          | (Normal, g') => loadAvatarImages_from fuel' (S i) g'
          | (Threw e, g') => Some (Threw e, g')
          end
      end
  end.

Definition loadAvatarImages (g : GameClient) : Completion * GameClient :=
  match loadAvatarImages_from (S (List.length (avatars g))) 0 g with
  | Some r => r
  | None => (Normal, g)
  end.

(** ** Rendering *)

Definition Qltb (a b : Q) : bool := negb (Qle_bool b a).

(** One call on [this.ctx]. *)
Definition ctx (op : CanvasOp) (g : GameClient) : GameClient :=
  with_canvas
    (Canvas.mk (Canvas.width (canvas g)) (Canvas.height (canvas g))
               (Canvas.ops (canvas g) ++ [op])) g.

Definition ctxs (l : list CanvasOp) (g : GameClient) : GameClient :=
  fold_left (fun acc op => ctx op acc) l g.

(** [username.length], for the label's background. *)
Definition jsLength (s : string) : Q := inject_Z (Z.of_nat (String.length s)).

Definition drawPlayerLabel (username : string) (x y : Q) (g : GameClient)
  : GameClient :=
  ctxs [ save;
         fillStyle "rgba(0, 0, 0, 0.7)";
         fillRect (x - jsLength username * 3) (y - 12) (jsLength username * 6) 14;
         fillStyle "#ffffff";
         font "12px Arial";
         textAlign "center";
         fillText username x y;
         restore ] g.

(** [frames[frameIndex % frames.length]]: the remainder has the sign of
    [frameIndex], and a negative index is [undefined]. *)
Definition frameAt {A : Type} (frames : list A) (frameIndex : Z) : option A :=
  let i := Z.rem frameIndex (Z.of_nat (List.length frames)) in
  if (i <? 0)%Z then None else nth_error frames (Z.to_nat i).

(** [player.animationFrame || 0]. *)
Definition frameIndexOf (player : Player.t) : Z :=
  match Player.animationFrame player with
  | Some n => n
  | None => 0%Z
  end.

Definition avatarSize : Q := 32.

(** [drawPlayer(player)].  Every early [return] leaves the state as it is. *)
Definition drawPlayer (player : Player.t) (g : GameClient) : GameClient :=
  let screenPos := worldToScreen g (Player.x player) (Player.y player) in
  if Qltb (px screenPos) (-(50)) || Qltb (viewportWidth g + 50) (px screenPos)
     || Qltb (py screenPos) (-(50)) || Qltb (viewportHeight g + 50) (py screenPos)
  then g
  else
    match JsMap.get (Player.avatar player) (avatars g) with
    | None => g
    | Some (Raw _) => g
    | Some (Loaded avatar) =>
        let direction :=
          if String.eqb (Player.facing player) "west" then "east"
          else Player.facing player in
        match byDirection (images avatar) direction with
        | None => g
        | Some [] => g
        | Some frames =>
            match frameAt frames (frameIndexOf player) with
            | None => g
            | Some avatarImage =>
                if negb (Image.complete avatarImage) then g
                else
                  let aspectRatio :=
                    Image.width avatarImage / Image.height avatarImage in
                  let width := avatarSize in
                  let height := avatarSize / aspectRatio in
                  let g := ctx save g in
                  let g :=
                    if String.eqb (Player.facing player) "west" then
                      ctx (drawImage avatarImage
                             (- px screenPos - width / 2)
                             (py screenPos - height / 2) width height)
                        (ctx (scale (-(1)) 1) g)
                    else
                      ctx (drawImage avatarImage
                             (px screenPos - width / 2)
                             (py screenPos - height / 2) width height) g in
                  let g := ctx restore g in
                  drawPlayerLabel (Player.username player) (px screenPos)
                    (py screenPos - height / 2 - 5) g
            end
        end
    end.

(** [for (const [playerId, player] of this.players) this.drawPlayer(player)];
    [drawPlayer] does not write [this.players]. *)
Definition drawPlayers (g : GameClient) : GameClient :=
  fold_left (fun acc e => drawPlayer (snd e) acc) (players g) g.

Definition drawWorldBoundaries (g : GameClient) : GameClient :=
  let worldLeft := - cameraX g in
  let worldTop := - cameraY g in
  let worldRight := worldWidth g - cameraX g in
  let worldBottom := worldHeight g - cameraY g in
  let g := ctx (strokeStyle "#ff0000") g in
  let g := ctx (lineWidth 2) g in
  let g :=
    if Qle_bool 0 worldLeft && Qltb worldLeft (viewportWidth g) then
      ctxs [beginPath; moveTo worldLeft 0; lineTo worldLeft (viewportHeight g); stroke] g
    else g in
  let g :=
    if Qle_bool 0 worldTop && Qltb worldTop (viewportHeight g) then
      ctxs [beginPath; moveTo 0 worldTop; lineTo (viewportWidth g) worldTop; stroke] g
    else g in
  let g :=
    if Qle_bool 0 worldRight && Qltb worldRight (viewportWidth g) then
      ctxs [beginPath; moveTo worldRight 0; lineTo worldRight (viewportHeight g); stroke] g
    else g in
  if Qle_bool 0 worldBottom && Qltb worldBottom (viewportHeight g) then
    ctxs [beginPath; moveTo 0 worldBottom; lineTo (viewportWidth g) worldBottom; stroke] g
  else g.

Definition render (g : GameClient) : GameClient :=
  match worldImage g with
  | None => g
  | Some img =>
      let g := ctx (clearRect 0 0 (Canvas.width (canvas g)) (Canvas.height (canvas g))) g in
      let g :=
        ctx (drawImageSub img (cameraX g) (cameraY g) (viewportWidth g) (viewportHeight g)
               0 0 (viewportWidth g) (viewportHeight g)) g in
      let g := drawWorldBoundaries g in
      drawPlayers g
  end.

(** ** Clock and timers

    [Date.now()] reads [clock]; [setTimeout(f, delay)] files [f] under the
    time it is due.  The only deferred work of the client's core is the
    removal of an emote. *)

Inductive Callback : Type :=
| expireEmote (playerId : string).

Record Timer : Type := mkTimer {
  due : Z;
  callback : Callback
}.

Record World : Type := mkWorld {
  this : GameClient;
  clock : Z;
  timers : list Timer
}.

Definition on_this (f : GameClient -> GameClient) (w : World) : World :=
  mkWorld (f (this w)) (clock w) (timers w).

Definition setTimeout (cb : Callback) (delay : Z) (w : World) : World :=
  mkWorld (this w) (clock w) (timers w ++ [mkTimer (clock w + delay) cb]).

(** ** Handling the server's messages *)

Inductive ServerMessage : Type :=
| join_game (success : bool) (playerId : string)
    (msg_players : list (string * Player.t))
    (msg_avatars : list (string * AvatarData)) (error : string)
| player_joined (player : Player.t) (avatar : AvatarData)
| players_moved (msg_players : list (string * Player.t))
| player_left (playerId : string)
| emote (playerId : string) (emoteType : string)
| other_action (action : string).

(** [playerId === this.myPlayerId]. *)
Definition isMyPlayerId (playerId : string) (g : GameClient) : bool :=
  match myPlayerId g with
  | Some mine => String.eqb playerId mine
  | None => false
  end.

Definition handleJoinGameSuccess (playerId : string)
    (msg_players : list (string * Player.t))
    (msg_avatars : list (string * AvatarData)) (g : GameClient)
  : Completion * GameClient :=
  let g := with_myPlayerId (Some playerId) g in
  let g := with_players (JsMap.setAll msg_players (players g)) g in
  let g :=
    with_avatars
      (JsMap.setAll (map (fun e => (fst e, Raw (snd e))) msg_avatars) (avatars g)) g in
  let g := with_myPlayer (JsMap.get playerId (players g)) g in
  let g := centerViewportOnPlayer g in
  match loadAvatarImages g with
  | (Threw e, g) => (Threw e, g)
  | (Normal, g) =>
      match myPlayer g with
      | None => (Threw "TypeError", g)   (* [this.myPlayer.username] *)
      | Some _ => (Normal, render g)
      end
  end.

Definition handlePlayerJoined (player : Player.t) (avatar : AvatarData)
    (g : GameClient) : Completion * GameClient :=
  let g := with_players (JsMap.set (Player.id player) player (players g)) g in
  let g := with_avatars (JsMap.set (data_name avatar) (Raw avatar) (avatars g)) g in
  match loadAvatarImage (Raw avatar) g with
  | (Threw e, g) => (Threw e, g)
  | (Normal, g) => (Normal, render g)
  end.

Definition handlePlayersMoved (msg_players : list (string * Player.t))
    (g : GameClient) : GameClient :=
  render
    (fold_left
       (fun g e =>
          let playerId := fst e in
          let playerData := snd e in
          let g := with_players (JsMap.set playerId playerData (players g)) g in
          if isMyPlayerId playerId g then
            centerViewportOnPlayer (with_myPlayer (Some playerData) g)
          else g)
       msg_players g).

Definition handlePlayerLeft (playerId : string) (g : GameClient) : GameClient :=
  let g := with_players (JsMap.delete playerId (players g)) g in
  let g := with_playerEmotes (JsMap.delete playerId (playerEmotes g)) g in
  render g.

Definition startEmoteAnimation (playerId emoteType : string) (w : World) : World :=
  if String.eqb emoteType "jump" then
    let effect := mkEmote "jump" (clock w) 1500 3 in
    let w :=
      on_this (fun g => with_playerEmotes (JsMap.set playerId effect (playerEmotes g)) g) w in
    setTimeout (expireEmote playerId) 1500 w
  else w.

Definition handlePlayerEmote (playerId emoteType : string) (w : World) : World :=
  on_this render (startEmoteAnimation playerId emoteType w).

Definition handleServerMessage (message : ServerMessage) (w : World)
  : Completion * World :=
  match message with
  | join_game success playerId msg_players msg_avatars _ =>
      if success then
        let (c, g) := handleJoinGameSuccess playerId msg_players msg_avatars (this w) in
        (c, on_this (fun _ => g) w)
      else (Normal, w)
  | player_joined player avatar =>
      let (c, g) := handlePlayerJoined player avatar (this w) in
      (c, on_this (fun _ => g) w)
  | players_moved msg_players => (Normal, on_this (handlePlayersMoved msg_players) w)
  | player_left playerId => (Normal, on_this (handlePlayerLeft playerId) w)
  | emote playerId emoteType => (Normal, handlePlayerEmote playerId emoteType w)
  | other_action _ => (Normal, w)
  end.

(** [ws.onmessage]: an exception of the handler is caught and logged. *)
Definition onmessage (message : ServerMessage) (w : World) : World :=
  snd (handleServerMessage message w).

(** ** Timers firing *)

(** The body given to [setTimeout] in [startEmoteAnimation]. *)
Definition runCallback (cb : Callback) (w : World) : World :=
  match cb with
  | expireEmote playerId =>
      on_this
        (fun g => render (with_playerEmotes (JsMap.delete playerId (playerEmotes g)) g)) w
  end.

(** Timers fire in the order they are due, and in the order they were set
    when due together. *)
Fixpoint insertTimer (tm : Timer) (l : list Timer) : list Timer :=
  match l with
  | [] => [tm]
  | h :: rest =>
      if (due tm <=? due h)%Z then tm :: l else h :: insertTimer tm rest
  end.

Definition sortTimers (l : list Timer) : list Timer :=
  fold_right insertTimer [] l.

Definition fire (w : World) (tm : Timer) : World :=
  runCallback (callback tm) (mkWorld (this w) (due tm) (timers w)).

(** Let time pass until [now]: every timer due by then fires, at the time it
    is due. *)
Definition advance (now : Z) (w : World) : World :=
  let ready := filter (fun tm => (due tm <=? now)%Z) (timers w) in
  let pending := filter (fun tm => negb (due tm <=? now)%Z) (timers w) in
  let w := fold_left fire (sortTimers ready) (mkWorld (this w) (clock w) pending) in
  mkWorld (this w) now (timers w).

(** A message that arrives at time [now]. *)
Definition deliver (now : Z) (message : ServerMessage) (w : World) : World :=
  onmessage message (advance now w).

(** Whether an effect of the given kind is recorded for the player. *)
Definition hasEmote (playerId kind : string) (g : GameClient) : bool :=
  match JsMap.get playerId (playerEmotes g) with
  | Some e => String.eqb (emote_type e) kind
  | None => false
  end.

(** Whether it is still recorded for one who looks at time [now]. *)
Definition isActive (playerId kind : string) (now : Z) (w : World) : bool :=
  hasEmote playerId kind (this (advance now w)).

(** ** Input *)

Definition Math_round (q : Q) : Z := Qfloor (q + (1 # 2)).

Inductive MoveArgument : Type :=
| byName (direction : string)
| byTarget (x y : Q).

Definition ws_send (message : OutMessage) (g : GameClient) : GameClient :=
  match ws g with
  | Some s =>
      with_ws (Some (WebSocket.mk (WebSocket.readyState s) (WebSocket.sent s ++ [message]))) g
  | None => g
  end.

(** [!this.ws || this.ws.readyState !== WebSocket.OPEN] negated. *)
Definition ws_open (g : GameClient) : bool :=
  match ws g with
  | Some s => match WebSocket.readyState s with OPEN => true | _ => false end
  | None => false
  end.

Definition sendMoveCommand (arg : MoveArgument) (g : GameClient) : GameClient :=
  if negb (ws_open g) then g
  else
    let message :=
      match arg with
      | byName direction => out_move_direction direction
      | byTarget x y => out_move_to (Math_round x) (Math_round y)
      end in
    ws_send message g.

Record ClickEvent : Type := mkClickEvent {
  clientX : Q;
  clientY : Q;
  rect_left : Q;   (* [canvas.getBoundingClientRect().left] *)
  rect_top : Q
}.

(** The listener of ['click'] set by [setupEventListeners]. *)
Definition onClick (event : ClickEvent) (g : GameClient) : GameClient :=
  let screenX := clientX event - rect_left event in
  let screenY := clientY event - rect_top event in
  let worldPos := screenToWorld g screenX screenY in
  if Qle_bool 0 (px worldPos) && Qle_bool (px worldPos) (worldWidth g)
     && Qle_bool 0 (py worldPos) && Qle_bool (py worldPos) (worldHeight g)
  then sendMoveCommand (byTarget (px worldPos) (py worldPos)) g
  else g.

(** [setupCanvas] and the listener of ['resize'] it sets. *)
Definition sizeCanvas (innerWidth innerHeight : N) (g : GameClient) : GameClient :=
  let g :=
    with_canvas
      (Canvas.mk (inject_Z (Z.of_N innerWidth)) (inject_Z (Z.of_N innerHeight))
                 (Canvas.ops (canvas g))) g in
  with_viewport (Canvas.width (canvas g)) (Canvas.height (canvas g)) g.

Definition setupCanvas (innerWidth innerHeight : N) (g : GameClient) : GameClient :=
  sizeCanvas innerWidth innerHeight g.

Definition onResize (innerWidth innerHeight : N) (g : GameClient) : GameClient :=
  render (updateViewport (sizeCanvas innerWidth innerHeight g)).

(** [loadWorldMap]: the image is made and its loading begun. *)
Definition loadWorldMap (g : GameClient) : GameClient :=
  with_worldImage (Some (Image.create "world.jpg")) g.

(** The client in a window of 800 by 600 once [setupCanvas] and
    [loadWorldMap] have run, at time 0 and with no timer set. *)
Definition started : World :=
  mkWorld (loadWorldMap (setupCanvas 800 600 (constructed (Canvas.mk 300 150 [])))) 0 [].

(** ** Notions used in the statements, and states to try them on *)

(** [g'] is [g] with more drawn on its canvas. *)
Definition painted (g g' : GameClient) : Prop :=
  g' = with_canvas (canvas g') g.

(** The clamp of [updateViewport] on one axis. *)
Definition clamp (offset limit : Q) : Q := Qmax 0 (Qmin offset limit).

(** The invariant of the camera. *)
Definition clamped (g : GameClient) : Prop :=
  0 <= cameraX g <= Qmax 0 (worldWidth g - viewportWidth g) /\
  0 <= cameraY g <= Qmax 0 (worldHeight g - viewportHeight g).

(** A state to try the camera on: the constructor's world of 2048 by 2048,
    a viewport, and the local player at a position. *)
Definition somePlayer (id : string) (x y : Q) : Player.t :=
  Player.mk id id x y "south" "default" (Some 0%Z).

Definition clientAt (vw vh : Q) (p : Player.t) : GameClient :=
  with_myPlayer (Some p)
    (with_players [(Player.id p, p)]
       (with_myPlayerId (Some (Player.id p))
          (with_viewport vw vh (constructed (Canvas.mk vw vh []))))).

(** The messages sent so far. *)
Definition outbox (g : GameClient) : list OutMessage :=
  match ws g with
  | Some s => WebSocket.sent s
  | None => []
  end.

(** Where a click lands in the world. *)
Definition clickTarget (event : ClickEvent) (g : GameClient) : Point :=
  screenToWorld g (clientX event - rect_left event) (clientY event - rect_top event).

Definition insideWorld (pt : Point) (g : GameClient) : Prop :=
  0 <= px pt <= worldWidth g /\ 0 <= py pt <= worldHeight g.

(** The claim C9 as the specification words it. *)
Definition click_sends_iff_inside (event : ClickEvent) (g : GameClient) : Prop :=
  insideWorld (clickTarget event g) g <->
  outbox (onClick event g) =
  (outbox g ++ [out_move_to (Math_round (px (clickTarget event g)))
                            (Math_round (py (clickTarget event g)))])%list.

Definition openSocket : WebSocket.t := WebSocket.mk OPEN [].

(** The player is within the viewport widened by the margin of 50. *)
Definition inView (player : Player.t) (g : GameClient) : bool :=
  let screenPos := worldToScreen g (Player.x player) (Player.y player) in
  negb (Qltb (px screenPos) (-(50)) || Qltb (viewportWidth g + 50) (px screenPos)
        || Qltb (py screenPos) (-(50)) || Qltb (viewportHeight g + 50) (py screenPos)).

(** The direction whose frames are drawn. *)
Definition resolvedDirection (player : Player.t) : string :=
  if String.eqb (Player.facing player) "west" then "east" else Player.facing player.

(** What [drawPlayer] paints once it has its image. *)
Definition sprite (player : Player.t) (avatarImage : Image.t) (g : GameClient)
  : GameClient :=
  let screenPos := worldToScreen g (Player.x player) (Player.y player) in
  let height := avatarSize / (Image.width avatarImage / Image.height avatarImage) in
  let picture :=
    if String.eqb (Player.facing player) "west" then
      [scale (-(1)) 1;
       drawImage avatarImage (- px screenPos - avatarSize / 2)
         (py screenPos - height / 2) avatarSize height]
    else
      [drawImage avatarImage (px screenPos - avatarSize / 2)
         (py screenPos - height / 2) avatarSize height] in
  drawPlayerLabel (Player.username player) (px screenPos)
    (py screenPos - height / 2 - 5)
    (ctxs ((save :: picture) ++ [restore])%list g).

(** An avatar with two loaded frames for east and none for north and south,
    and a client that holds it together with a player facing west. *)
Definition eastOnly : LoadedAvatar :=
  mkLoadedAvatar "default"
    (mkDirectional [] [] [Image.mk "e0" true 32 48; Image.mk "e1" true 32 48]).

Definition westward : Player.t :=
  Player.mk "me" "me" 100 100 "west" "default" (Some 3%Z).

Definition clientWith (a : Avatar) (p : Player.t) : GameClient :=
  with_avatars [("default", a)] (clientAt 800 600 p).

(** Every entry from position [n] on is one that [loadAvatarImage] stored. *)
Definition loadedFrom (n : nat) (m : JsMap.t Avatar) : Prop :=
  forall j k a, (n <= j)%nat -> nth_error m j = Some (k, a) -> exists l, a = Loaded l.

(** The state [handleJoinGameSuccess] reaches before it loads the avatars. *)
Definition joined (playerId : string) (msg_players : list (string * Player.t))
    (msg_avatars : list (string * AvatarData)) (g : GameClient) : GameClient :=
  let g := with_myPlayerId (Some playerId) g in
  let g := with_players (JsMap.setAll msg_players (players g)) g in
  let g :=
    with_avatars
      (JsMap.setAll (map (fun e => (fst e, Raw (snd e))) msg_avatars) (avatars g)) g in
  let g := with_myPlayer (JsMap.get playerId (players g)) g in
  centerViewportOnPlayer g.

(** The registry holds exactly the players of the message: the claim C1 as
    the specification words it. *)
Definition registryIs (entries : list (string * Player.t)) (g : GameClient) : Prop :=
  forall id, JsMap.get id (players g) = JsMap.get id entries.

Definition emoteOf (playerId : string) (w : World) : option Emote :=
  JsMap.get playerId (playerEmotes (this w)).

(** The timer removes the emote of the player it was set for. *)
Definition expires (playerId : string) (tm : Timer) : bool :=
  match callback tm with
  | expireEmote target => String.eqb target playerId
  end.

(** Every timer set for the player is due by [now]: none is still to come. *)
Definition noExpiryPending (playerId : string) (now : Z) (w : World) : bool :=
  negb (existsb (fun tm => expires playerId tm && negb (due tm <=? now)%Z) (timers w)).

(** The claim C4 as the specification words it, for one event. *)
Definition emote_starts_effect (playerId kind : string) (t0 : Z) (w : World) : Prop :=
  forall t, (t0 <= t < t0 + 1500)%Z ->
            isActive playerId kind t (deliver t0 (emote playerId kind) w) = true.

(** A world in which another player's jump, begun at 200, is still to be
    removed. *)
Definition othersJumping : World := deliver 200 (emote "you" "jump") started.

(** The claim C2 as the specification words it, for a first start at [t0] and
    a second at [t1]: the second effect stays until [t1 + 1500]. *)
Definition restart_lasts (playerId : string) (t0 t1 : Z) (w : World) : Prop :=
  let w2 := deliver t1 (emote playerId "jump") (deliver t0 (emote playerId "jump") w) in
  forall t, (t1 <= t < t1 + 1500)%Z -> isActive playerId "jump" t w2 = true.

Definition defaultAvatar : AvatarData :=
  mkAvatarData "default" (mkDirectional ["n0"] ["s0"] ["e0"; "e1"]).

Definition welcome (playerId : string) (msg_players : list (string * Player.t))
  : ServerMessage :=
  join_game true playerId msg_players [("default", defaultAvatar)] "".

(** [this.myPlayer] is the registry's entry for [this.myPlayerId]. *)
Definition localRefSynced (g : GameClient) : Prop :=
  myPlayer g =
  match myPlayerId g with
  | Some mine => JsMap.get mine (players g)
  | None => None
  end.

(** ** Further notions: what is drawn, what is loaded, runs of the client *)

(** The operations on the canvas so far. *)
Definition drawnOps (g : GameClient) : list CanvasOp := Canvas.ops (canvas g).

(** The four calls that stroke one boundary line. *)
Definition boundaryLine (x0 y0 x1 y1 : Q) : list CanvasOp :=
  [beginPath; moveTo x0 y0; lineTo x1 y1; stroke].

(** The client of 800 by 600 centred on a player near the left edge and far
    down the world. *)
Definition nearLeftEdge : GameClient :=
  centerViewportOnPlayer (clientAt 800 600 (somePlayer "me" 100 2040)).

(** What [loadAvatarImage] stores for an avatar of the server: one image per
    frame, its loading begun. *)
Definition loadedOf (d : AvatarData) : Avatar :=
  Loaded (mkLoadedAvatar (data_name d) (mapDirectional Image.create (frames d))).

(** An entry of [this.avatars] as a handler stores it: the server's object
    under its own name. *)
Definition isFresh (e : string * Avatar) : bool :=
  match snd e with
  | Raw d => String.eqb (data_name d) (fst e)
  | Loaded _ => false
  end.

Definition loadEntry (e : string * Avatar) : string * Avatar :=
  match snd e with
  | Raw d => (fst e, loadedOf d)
  | Loaded _ => e
  end.

(** A client that has handled a welcome and so holds a loaded avatar. *)
Definition welcomed : World :=
  onmessage (welcome "me" [("me", somePlayer "me" 2040 2040);
                           ("you", somePlayer "you" 10 10)]) started.

(** A client whose avatar map holds two avatars as the server sent them. *)
Definition twoRawAvatars : GameClient :=
  with_avatars [("knight", Raw (mkAvatarData "knight" (mkDirectional ["k0"] [] ["k1"; "k2"])));
                ("default", Raw defaultAvatar)]
    (this started).

(** The avatar of the message is keyed by its own name. *)
Definition keyedByName (e : string * AvatarData) : bool :=
  String.eqb (data_name (snd e)) (fst e).

(** The body of the loop of [handlePlayersMoved]. *)
Definition movedStep (g : GameClient) (e : string * Player.t) : GameClient :=
  let playerId := fst e in
  let playerData := snd e in
  let g := with_players (JsMap.set playerId playerData (players g)) g in
  if isMyPlayerId playerId g then
    centerViewportOnPlayer (with_myPlayer (Some playerData) g)
  else g.

(** [g'] differs from [g] in the registry, the local player and the camera
    at most. *)
Definition movedOnly (g g' : GameClient) : Prop :=
  g' = with_camera (cameraX g') (cameraY g')
         (with_myPlayer (myPlayer g') (with_players (players g') g)).

(** [g'] differs from [g] in the emotes and the canvas at most. *)
Definition expiredOnly (g g' : GameClient) : Prop :=
  g' = with_canvas (canvas g') (with_playerEmotes (playerEmotes g') g).

(** The timer a message sets, if any: only an emote of kind ["jump"] sets
    one. *)
Definition timerSetBy (message : ServerMessage) (w : World) : list Timer :=
  match message with
  | emote playerId emoteType =>
      if String.eqb emoteType "jump"
      then [mkTimer (clock w + 1500) (expireEmote playerId)]
      else []
  | _ => []
  end.

(** A world where ["you"] started a jump at 200 and left at 900. *)
Definition leftWhileJumping : World := deliver 900 (player_left "you") othersJumping.

(** What happens to the client, one thing at a time. *)
Inductive Input : Type :=
| received (message : ServerMessage)
| clicked (event : ClickEvent)
| resized (innerWidth innerHeight : N)
| waited.

(** One turn of the event loop: [elapsed] after the last one the timers due
    by then have fired, and the listener for the input runs. *)
Definition step (elapsed : N) (input : Input) (w : World) : World :=
  let w := advance (clock w + Z.of_N elapsed) w in
  match input with
  | received message => onmessage message w
  | clicked event => on_this (onClick event) w
  | resized innerWidth innerHeight => on_this (onResize innerWidth innerHeight) w
  | waited => w
  end.

Definition run (inputs : list (N * Input)) (w : World) : World :=
  fold_left (fun w i => step (fst i) (snd i) w) inputs w.

(** The three maps of the client hold each key once. *)
Definition uniqueKeys (g : GameClient) : Prop :=
  NoDup (JsMap.keys (players g)) /\
  NoDup (JsMap.keys (avatars g)) /\
  NoDup (JsMap.keys (playerEmotes g)).

(** Every recorded emote is a jump that began at most 1500 ago and whose
    removal is set; every timer is due within the next 1500. *)
Definition emotesTimely (w : World) : Prop :=
  (forall playerId e,
     emoteOf playerId w = Some e ->
     e = mkEmote "jump" (startTime e) 1500 3 /\
     (startTime e <= clock w < startTime e + 1500)%Z /\
     In (mkTimer (startTime e + 1500) (expireEmote playerId)) (timers w)) /\
  (forall tm, In tm (timers w) -> (clock w < due tm <= clock w + 1500)%Z).

(** A session to try the runs on: a welcome, a jump, a click, a resize, a
    move of the local player and the leave of the other one. *)
Definition session : list (N * Input) :=
  [(0%N, received (welcome "me" [("me", somePlayer "me" 2040 2040);
                                 ("you", somePlayer "you" 10 10)]));
   (500%N, received (emote "you" "jump"));
   (100%N, clicked (mkClickEvent 410 310 10 10));
   (700%N, resized 1024%N 768%N);
   (300%N, received (players_moved [("me", somePlayer "me" 100 100)]));
   (1000%N, received (player_left "you"))].

(** The input is a [player_joined] or a [player_left] that names the local
    player. *)
Definition namesLocalPlayer (input : Input) (g : GameClient) : bool :=
  match input with
  | received (player_joined player _) => isMyPlayerId (Player.id player) g
  | received (player_left playerId) => isMyPlayerId playerId g
  | _ => false
  end.

(** * Properties *)

(** ** Lemmas on [JsMap] *)

Module JsMapFacts.
Section Facts.
Context {V : Type}.
Implicit Types (m : JsMap.t V) (k : string) (v : V).

Lemma get_set_same k v m : JsMap.get k (JsMap.set k v m) = Some v.
Proof.
  induction m as [|[k' v'] m IH]; simpl.
  - now rewrite String.eqb_refl.
  - destruct (String.eqb k k') eqn:E; simpl.
    + now rewrite String.eqb_refl.
    + now rewrite E.
Qed.

Lemma get_set_other k k' v m :
  k' <> k -> JsMap.get k' (JsMap.set k v m) = JsMap.get k' m.
Proof.
  intros Hne. induction m as [|[k0 v0] m IH]; simpl.
  - destruct (String.eqb_spec k' k); congruence.
  - destruct (String.eqb_spec k k0) as [->|Hk]; simpl.
    + destruct (String.eqb_spec k' k0); congruence.
    + destruct (String.eqb_spec k' k0); congruence.
Qed.

Lemma get_delete_same k m : JsMap.get k (JsMap.delete k m) = None.
Proof.
  unfold JsMap.delete.
  induction m as [|[k' v'] m IH]; simpl; [reflexivity|].
  destruct (String.eqb k k') eqn:E; simpl; [assumption|].
  now rewrite E.
Qed.

Lemma get_delete_other k k' m :
  k' <> k -> JsMap.get k' (JsMap.delete k m) = JsMap.get k' m.
Proof.
  intros Hne. unfold JsMap.delete.
  induction m as [|[k0 v0] m IH]; simpl; [reflexivity|].
  destruct (String.eqb_spec k k0) as [->|Hk]; simpl.
  - destruct (String.eqb_spec k' k0); congruence.
  - destruct (String.eqb_spec k' k0); congruence.
Qed.

Lemma get_delete_none k k' m :
  JsMap.get k' m = None -> JsMap.get k' (JsMap.delete k m) = None.
Proof.
  intros H. destruct (String.eqb_spec k' k) as [->|Hne].
  - apply get_delete_same.
  - now rewrite get_delete_other.
Qed.

Lemma get_None_iff k m : JsMap.get k m = None <-> ~ In k (JsMap.keys m).
Proof.
  induction m as [|[k' v'] m IH]; simpl.
  - tauto.
  - destruct (String.eqb_spec k k') as [->|Hne].
    + split; [discriminate | intros H; exfalso; apply H; now left].
    + rewrite IH. split; [intros H [E|E]; congruence | tauto].
Qed.

(** What [for (const [k, v] of entries) m.set(k, v)] leaves under a key
    that is not among the entries. *)
Lemma get_setAll_other entries k m :
  ~ In k (JsMap.keys entries) ->
  JsMap.get k (JsMap.setAll entries m) = JsMap.get k m.
Proof.
  unfold JsMap.setAll. revert m.
  induction entries as [|[k0 v0] entries IH]; intros m Hn; simpl in *.
  - reflexivity.
  - rewrite IH by tauto. apply get_set_other. intros ->. tauto.
Qed.

(** And under a key that is: the entry's value, the keys of
    [Object.entries] being distinct. *)
Lemma get_setAll_in entries k v m :
  NoDup (JsMap.keys entries) -> In (k, v) entries ->
  JsMap.get k (JsMap.setAll entries m) = Some v.
Proof.
  unfold JsMap.setAll. revert m.
  induction entries as [|[k0 v0] entries IH]; intros m Hnd Hin; simpl in *.
  - contradiction.
  - inversion Hnd as [|? ? Hnotin Hnd']; subst.
    destruct Hin as [E|Hin].
    + inversion E; subst.
      fold (JsMap.setAll entries (JsMap.set k v m)).
      rewrite get_setAll_other by assumption. apply get_set_same.
    + now apply IH.
Qed.

Lemma get_entries_in entries k v :
  NoDup (JsMap.keys entries) -> In (k, v) entries ->
  JsMap.get k entries = Some v.
Proof.
  induction entries as [|[k0 v0] entries IH]; intros Hnd Hin; simpl in *.
  - contradiction.
  - inversion Hnd as [|? ? Hnotin Hnd']; subst.
    destruct Hin as [E|Hin].
    + inversion E; subst. now rewrite String.eqb_refl.
    + destruct (String.eqb_spec k k0) as [->|Hne].
      * exfalso. apply Hnotin. change (In (fst (k0, v)) (map fst entries)).
        now apply in_map.
      * now apply IH.
Qed.

Lemma has_set k k' v m :
  JsMap.has k' m = true -> JsMap.has k' (JsMap.set k v m) = true.
Proof.
  unfold JsMap.has. intros H.
  destruct (String.eqb_spec k' k) as [->|Hne].
  - now rewrite get_set_same.
  - now rewrite get_set_other.
Qed.

Lemma has_setAll entries k m :
  JsMap.has k m = true -> JsMap.has k (JsMap.setAll entries m) = true.
Proof.
  unfold JsMap.setAll. revert m.
  induction entries as [|[k0 v0] entries IH]; intros m H; simpl.
  - assumption.
  - apply IH. now apply has_set.
Qed.

Lemma has_setAll_in entries k v m :
  In (k, v) entries -> JsMap.has k (JsMap.setAll entries m) = true.
Proof.
  unfold JsMap.setAll. revert m.
  induction entries as [|[k0 v0] entries IH]; intros m Hin; simpl in *.
  - contradiction.
  - destruct Hin as [E|Hin].
    + inversion E; subst. fold (JsMap.setAll entries (JsMap.set k v m)).
      apply has_setAll. unfold JsMap.has. now rewrite get_set_same.
    + now apply IH.
Qed.

Lemma length_set k v m :
  (List.length m <= List.length (JsMap.set k v m) <= S (List.length m))%nat.
Proof.
  induction m as [|[k' v'] m IH]; simpl.
  - lia.
  - destruct (String.eqb k k'); simpl; lia.
Qed.
End Facts.
End JsMapFacts.

(** ** Painting writes nothing but the canvas *)

Lemma painted_refl g : painted g g.
Proof. destruct g; reflexivity. Qed.

Lemma painted_trans g1 g2 g3 : painted g1 g2 -> painted g2 g3 -> painted g1 g3.
Proof.
  unfold painted. intros H12 H23. rewrite H23 at 1. rewrite H12 at 1. reflexivity.
Qed.

Lemma painted_ctx op g g' : painted g g' -> painted g (ctx op g').
Proof.
  intros H. apply (painted_trans _ _ _ H). destruct g'; reflexivity.
Qed.

Lemma painted_fold {A : Type} (step : A -> GameClient -> GameClient) (l : list A) :
  (forall a g, painted g (step a g)) ->
  forall g g', painted g g' ->
  painted g (fold_left (fun acc a => step a acc) l g').
Proof.
  intros Hstep. induction l as [|a l IH]; intros g g' H; simpl.
  - assumption.
  - apply IH. apply (painted_trans _ _ _ H). apply Hstep.
Qed.

Lemma painted_ctxs l g g' : painted g g' -> painted g (ctxs l g').
Proof.
  apply (painted_fold ctx l). intros op g0. apply painted_ctx, painted_refl.
Qed.

Create HintDb paint.
#[local] Hint Resolve painted_refl painted_ctx painted_ctxs : paint.

Lemma painted_drawPlayerLabel username x y g g' :
  painted g g' -> painted g (drawPlayerLabel username x y g').
Proof. apply painted_ctxs. Qed.

#[local] Hint Resolve painted_drawPlayerLabel : paint.

Lemma painted_drawPlayer player g : painted g (drawPlayer player g).
Proof.
  unfold drawPlayer.
  destruct (_ || _); auto with paint.
  destruct (JsMap.get _ _) as [[d|a]|]; auto with paint.
  destruct (byDirection _ _) as [[|f fs]|]; auto with paint.
  destruct (frameAt _ _) as [img|]; auto with paint.
  destruct (negb _); auto with paint.
  destruct (String.eqb (Player.facing player) "west"); auto 10 with paint.
Qed.

Lemma painted_drawPlayers g : painted g (drawPlayers g).
Proof.
  unfold drawPlayers.
  apply (painted_fold (fun e => drawPlayer (snd e)) (players g)).
  - intros e g0. apply painted_drawPlayer.
  - apply painted_refl.
Qed.

Lemma painted_drawWorldBoundaries g : painted g (drawWorldBoundaries g).
Proof.
  unfold drawWorldBoundaries.
  repeat match goal with
         | |- context [if ?b then _ else _] => destruct b
         end; auto 10 with paint.
Qed.

Lemma painted_render g : painted g (render g).
Proof.
  unfold render. destruct (worldImage g) as [img|]; [|apply painted_refl].
  eapply painted_trans; [|apply painted_drawPlayers].
  eapply painted_trans; [|apply painted_drawWorldBoundaries].
  auto with paint.
Qed.

Lemma render_frame g : render g = with_canvas (canvas (render g)) g.
Proof. exact (painted_render g). Qed.

(** Reading any field but the canvas after [render] reads it before. *)
Ltac by_painted g := rewrite (painted_render g); reflexivity.

Lemma render_players g : players (render g) = players g.
Proof. by_painted g. Qed.
Lemma render_avatars g : avatars (render g) = avatars g.
Proof. by_painted g. Qed.
Lemma render_myPlayerId g : myPlayerId (render g) = myPlayerId g.
Proof. by_painted g. Qed.
Lemma render_myPlayer g : myPlayer (render g) = myPlayer g.
Proof. by_painted g. Qed.
Lemma render_playerEmotes g : playerEmotes (render g) = playerEmotes g.
Proof. by_painted g. Qed.
Lemma render_cameraX g : cameraX (render g) = cameraX g.
Proof. by_painted g. Qed.
Lemma render_cameraY g : cameraY (render g) = cameraY g.
Proof. by_painted g. Qed.
Lemma render_viewportWidth g : viewportWidth (render g) = viewportWidth g.
Proof. by_painted g. Qed.
Lemma render_viewportHeight g : viewportHeight (render g) = viewportHeight g.
Proof. by_painted g. Qed.
Lemma render_worldWidth g : worldWidth (render g) = worldWidth g.
Proof. by_painted g. Qed.
Lemma render_worldHeight g : worldHeight (render g) = worldHeight g.
Proof. by_painted g. Qed.
Lemma render_worldImage g : worldImage (render g) = worldImage g.
Proof. by_painted g. Qed.
Lemma render_ws g : ws (render g) = ws g.
Proof. by_painted g. Qed.

Create Rewrite HintDb render.
#[local] Hint Rewrite render_players render_avatars render_myPlayerId render_myPlayer render_playerEmotes render_cameraX render_cameraY render_viewportWidth render_viewportHeight render_worldWidth render_worldHeight render_worldImage render_ws : render.

(** ** The camera *)

(** [Math.max] and [Math.min] return one of their arguments. *)
Lemma Qmax_pick (a b : Q) :
  (a < b /\ Qmax a b = b) \/ (b <= a /\ Qmax a b = a).
Proof.
  unfold Qmax, GenericMinMax.gmax.
  destruct (Qcompare_spec a b) as [E|E|E].
  - right. split; [rewrite E; apply Qle_refl | reflexivity].
  - left. split; [assumption | reflexivity].
  - right. split; [now apply Qlt_le_weak | reflexivity].
Qed.

Lemma Qmin_pick (a b : Q) :
  (a <= b /\ Qmin a b = a) \/ (b < a /\ Qmin a b = b).
Proof.
  unfold Qmin, GenericMinMax.gmin.
  destruct (Qcompare_spec a b) as [E|E|E].
  - left. split; [rewrite E; apply Qle_refl | reflexivity].
  - left. split; [now apply Qlt_le_weak | reflexivity].
  - right. split; [assumption | reflexivity].
Qed.

(** Replace every [Qmax] and [Qmin] by a variable that [lra] can use. *)
Ltac minmax_cases :=
  repeat match goal with
  | |- context [Qmax ?a ?b] =>
      let m := fresh "m" in
      pose proof (Q.max_spec a b); set (m := Qmax a b) in *; clearbody m
  | |- context [Qmin ?a ?b] =>
      let m := fresh "m" in
      pose proof (Q.min_spec a b); set (m := Qmin a b) in *; clearbody m
  | H : context [Qmax ?a ?b] |- _ =>
      let m := fresh "m" in
      pose proof (Q.max_spec a b); set (m := Qmax a b) in *; clearbody m
  | H : context [Qmin ?a ?b] |- _ =>
      let m := fresh "m" in
      pose proof (Q.min_spec a b); set (m := Qmin a b) in *; clearbody m
  end.

Lemma Qhalf (q : Q) : q / 2 == q * (1 # 2).
Proof. reflexivity. Qed.

Lemma updateViewport_clamp g :
  cameraX (updateViewport g) = clamp (cameraX g) (worldWidth g - viewportWidth g) /\
  cameraY (updateViewport g) = clamp (cameraY g) (worldHeight g - viewportHeight g).
Proof. split; reflexivity. Qed.

Lemma clamp_range (offset limit : Q) :
  0 <= clamp offset limit <= Qmax 0 limit.
Proof. unfold clamp. minmax_cases. lra. Qed.

Lemma clamp_pinned (offset limit : Q) :
  limit <= 0 -> clamp offset limit == 0.
Proof. unfold clamp. intros H. minmax_cases. lra. Qed.

Lemma clamp_idempotent (offset limit : Q) :
  clamp (clamp offset limit) limit = clamp offset limit.
Proof.
  unfold clamp.
  destruct (Qmin_pick offset limit) as [[H1 E1]|[H1 E1]]; rewrite E1;
    [destruct (Qmax_pick 0 offset) as [[H2 E2]|[H2 E2]]
    |destruct (Qmax_pick 0 limit) as [[H2 E2]|[H2 E2]]]; rewrite E2;
    try (rewrite E1, E2; reflexivity).
  - destruct (Qmin_pick 0 limit) as [[H3 E3]|[H3 E3]]; rewrite E3.
    + destruct (Qmax_pick 0 0) as [[H4 E4]|[H4 E4]]; exact E4.
    + destruct (Qmax_pick 0 limit) as [[H4 E4]|[H4 E4]]; [lra | exact E4].
  - destruct (Qmin_pick limit limit) as [[H3 E3]|[H3 E3]]; rewrite E3, E2; reflexivity.
  - destruct (Qmin_pick 0 limit) as [[H3 E3]|[H3 E3]]; rewrite E3.
    + destruct (Qmax_pick 0 0) as [[H4 E4]|[H4 E4]]; exact E4.
    + destruct (Qmax_pick 0 limit) as [[H4 E4]|[H4 E4]]; [lra | exact E4].
Qed.

Lemma clamped_updateViewport g : clamped (updateViewport g).
Proof. split; apply clamp_range. Qed.

Lemma clamped_painted g g' : painted g g' -> clamped g -> clamped g'.
Proof. unfold painted. intros -> H. exact H. Qed.

Lemma centerViewportOnPlayer_tracked g p :
  myPlayer g = Some p ->
  centerViewportOnPlayer g =
  updateViewport
    (with_camera (Player.x p - viewportWidth g / 2)
                 (Player.y p - viewportHeight g / 2) g).
Proof. unfold centerViewportOnPlayer. now intros ->. Qed.

Lemma clamped_centerViewportOnPlayer g :
  clamped g -> clamped (centerViewportOnPlayer g).
Proof.
  intros H. unfold centerViewportOnPlayer.
  destruct (myPlayer g); [apply clamped_updateViewport | exact H].
Qed.

Lemma clamped_onResize innerWidth innerHeight g :
  clamped (onResize innerWidth innerHeight g).
Proof.
  unfold onResize.
  eapply clamped_painted; [apply painted_render | apply clamped_updateViewport].
Qed.

(** C5: every operation that sets the camera leaves it clamped:
    [0 <= cameraX <= max(0, worldWidth - viewportWidth)] and the same for Y,
    after [updateViewport], after [centerViewportOnPlayer] with a tracked
    player, and after a resize; where the viewport is at least as large as
    the world in an axis, the offset in that axis is 0. *)
Theorem camera_offset_clamped (g : GameClient) :
  clamped (updateViewport g) /\
  (forall p, myPlayer g = Some p -> clamped (centerViewportOnPlayer g)) /\
  (forall innerWidth innerHeight, clamped (onResize innerWidth innerHeight g)) /\
  (worldWidth g <= viewportWidth g ->
   cameraX (updateViewport g) == 0 /\
   forall p, myPlayer g = Some p -> cameraX (centerViewportOnPlayer g) == 0) /\
  (worldHeight g <= viewportHeight g ->
   cameraY (updateViewport g) == 0 /\
   forall p, myPlayer g = Some p -> cameraY (centerViewportOnPlayer g) == 0).
Proof.
  split; [apply clamped_updateViewport|].
  split; [intros p Hp; rewrite (centerViewportOnPlayer_tracked g p Hp);
          apply clamped_updateViewport|].
  split; [intros iw ih; apply clamped_onResize|].
  split; intros Hbig; (split; [apply clamp_pinned; lra|]);
    intros p Hp; rewrite (centerViewportOnPlayer_tracked g p Hp);
    apply clamp_pinned; cbn; lra.
Qed.

(** The theorem at a viewport of 3000 by 600 over the world of 2048 by 2048,
    the player standing at (2040, 2040): clamped, and pinned to 0 in X. *)
Lemma camera_offset_clamped_witness :
  clamped (centerViewportOnPlayer (clientAt 3000 600 (somePlayer "me" 2040 2040))) /\
  cameraX (centerViewportOnPlayer (clientAt 3000 600 (somePlayer "me" 2040 2040))) == 0.
Proof.
  pose (g := clientAt 3000 600 (somePlayer "me" 2040 2040)).
  destruct (camera_offset_clamped g) as (_ & Hcenter & _ & HpinX & _).
  split.
  - apply (Hcenter (somePlayer "me" 2040 2040)). reflexivity.
  - assert (Hbig : worldWidth g <= viewportWidth g) by (vm_compute; discriminate).
    apply (proj2 (HpinX Hbig) (somePlayer "me" 2040 2040)). reflexivity.
Defined.

Lemma worldsExact_all (n : nat) :
  forall world offset,
    worldsExact n world offset = true ->
    forall i, (i <= n)%nat ->
              axisExact offset (Nat.iter i (fun x => (x + 0.5)%float) world) = true.
Proof.
  induction n as [|n IH]; intros world offset H i Hi; simpl in H;
    apply andb_true_iff in H; destruct H as [Hhere Hrest].
  - assert (i = 0)%nat as -> by lia. exact Hhere.
  - destruct i as [|i]; [exact Hhere|].
    rewrite Nat.iter_succ_r. apply IH; [exact Hrest | lia].
Qed.

Lemma offsetsExact_all (m n : nat) :
  forall offset,
    offsetsExact m n offset = true ->
    forall k i, (k <= m)%nat -> (i <= n)%nat ->
                axisExact (Nat.iter k (fun x => (x + 0.5)%float) offset) (halfOf i) = true.
Proof.
  induction m as [|m IH]; intros offset H k i Hk Hi; simpl in H;
    apply andb_true_iff in H; destruct H as [Hhere Hrest].
  - assert (k = 0)%nat as -> by lia. now apply (worldsExact_all n).
  - destruct k as [|k]; [now apply (worldsExact_all n)|].
    rewrite Nat.iter_succ_r. apply IH; [exact Hrest | lia | exact Hi].
Qed.

Lemma forallb_seq (f : nat -> bool) (len : nat) :
  forall start,
    forallb f (seq start len) = true ->
    forall n, (start <= n < start + len)%nat -> f n = true.
Proof.
  induction len as [|len IH]; intros start H n Hn; [lia|].
  simpl in H. apply andb_true_iff in H. destruct H as [Hhere Hrest].
  destruct (Nat.eq_dec n start) as [->|Hne]; [exact Hhere|].
  apply (IH (S start) Hrest). lia.
Qed.

Lemma halves_counted :
  forallb (fun n => PrimFloat.eqb (halfOf n) (halved n)) (seq 0 4097) = true.
Proof. vm_compute. reflexivity. Qed.

(** Counting up by 0.5 does not round: [halfOf n] is [n / 2]. *)
Lemma halfOf_halved (n : nat) : (n <= 4096)%nat -> sameDouble (halfOf n) (halved n).
Proof.
  intros Hn. apply (forallb_seq _ 4097 0 halves_counted). lia.
Qed.

(** Every world coordinate and every offset among 0, 0.5, 1, .., 2048. *)
Lemma halves_exact : offsetsExact 4096 4096 0%float = true.
Proof. vm_compute. reflexivity. Qed.

(** C6, as amended: on doubles [screenToWorld] gives back exactly the world
    point that [worldToScreen] was given when the coordinates of the point
    and of the camera offset are multiples of 1/2 between 0 and 2048.  Both
    transforms are functions of the offset and the point alone: they return a
    pair of numbers and no state, on every input. *)
Theorem transform_round_trip_on_halves (i j k l : nat) :
  (i <= 4096)%nat -> (j <= 4096)%nat -> (k <= 4096)%nat -> (l <= 4096)%nat ->
  roundTripExact64 (halfOf k) (halfOf l) (halfOf i) (halfOf j).
Proof.
  intros Hi Hj Hk Hl. split.
  - exact (offsetsExact_all 4096 4096 0%float halves_exact k i Hk Hi).
  - exact (offsetsExact_all 4096 4096 0%float halves_exact l j Hl Hj).
Qed.

(** The theorem with the camera at (1248, 1448) and the world point
    (2040, 2040.5). *)
Lemma transform_round_trip_on_halves_witness :
  halfOf 2496 = 1248%float /\ halfOf 2896 = 1448%float /\
  halfOf 4080 = 2040%float /\ halfOf 4081 = 2040.5%float /\
  roundTripExact64 (halfOf 2496) (halfOf 2896) (halfOf 4080) (halfOf 4081).
Proof.
  repeat (split; [vm_compute; reflexivity|]).
  apply transform_round_trip_on_halves; lia.
Defined.

(** The claim as worded fails on doubles: with the camera at (1248, 1448)
    the world point (0.1, 0.1) comes back as 0.09999999999990905 in both
    coordinates. *)
Lemma transform_round_trip_rounds : ~ roundTripExact64 1248 1448 tenth tenth.
Proof.
  intros [Hx _]. unfold sameDouble in Hx. vm_compute in Hx. discriminate.
Qed.

(** C7: the clamp is idempotent, and in the world of 2048 by 2048 with a
    viewport of 800 by 600 centering on a player at (2040, 2040) gives the
    offset (1248, 1448), not the unclamped (1640, 1740). *)
Theorem clamp_idempotent_and_example :
  (forall g, updateViewport (updateViewport g) = updateViewport g) /\
  (forall g p,
     worldWidth g == 2048 -> worldHeight g == 2048 ->
     viewportWidth g == 800 -> viewportHeight g == 600 ->
     myPlayer g = Some p -> Player.x p == 2040 -> Player.y p == 2040 ->
     cameraX (centerViewportOnPlayer g) == 1248 /\
     cameraY (centerViewportOnPlayer g) == 1448 /\
     ~ cameraX (centerViewportOnPlayer g) == 1640 /\
     ~ cameraY (centerViewportOnPlayer g) == 1740).
Proof.
  split.
  - intros g. unfold updateViewport at 1 3. cbn.
    fold (clamp (cameraX g) (worldWidth g - viewportWidth g)).
    fold (clamp (cameraY g) (worldHeight g - viewportHeight g)).
    fold (clamp (clamp (cameraX g) (worldWidth g - viewportWidth g))
                (worldWidth g - viewportWidth g)).
    fold (clamp (clamp (cameraY g) (worldHeight g - viewportHeight g))
                (worldHeight g - viewportHeight g)).
    now rewrite !clamp_idempotent.
  - intros g p HW HH Hvw Hvh Hp Hx Hy.
    rewrite (centerViewportOnPlayer_tracked g p Hp). cbn.
    pose proof (Qhalf (viewportWidth g)). pose proof (Qhalf (viewportHeight g)).
    set (hw := viewportWidth g / 2) in *. set (hh := viewportHeight g / 2) in *.
    minmax_cases. repeat split; try intro; lra.
Qed.

Lemma clamp_idempotent_and_example_witness :
  let g := clientAt 800 600 (somePlayer "me" 2040 2040) in
  updateViewport (updateViewport g) = updateViewport g /\
  cameraX (centerViewportOnPlayer g) == 1248 /\
  cameraY (centerViewportOnPlayer g) == 1448.
Proof.
  intros g. destruct clamp_idempotent_and_example as [Hidem Hexample].
  split; [apply Hidem|].
  destruct (Hexample g (somePlayer "me" 2040 2040)) as (Hx & Hy & _);
    try reflexivity.
  split; [exact Hx | exact Hy].
Defined.

(** ** A refused join *)

(** C10: a [join_game] response with [success == false] changes nothing: the
    handler ends normally and the whole state (registry, avatars, local
    identity, camera, emotes, and with them canvas, socket, clock and timers)
    is the one before. *)
Theorem join_failure_changes_nothing
    (w : World) (playerId : string) (msg_players : list (string * Player.t))
    (msg_avatars : list (string * AvatarData)) (error : string) :
  let message := join_game false playerId msg_players msg_avatars error in
  handleServerMessage message w = (Normal, w) /\
  onmessage message w = w /\
  players (this (onmessage message w)) = players (this w) /\
  avatars (this (onmessage message w)) = avatars (this w) /\
  myPlayerId (this (onmessage message w)) = myPlayerId (this w) /\
  myPlayer (this (onmessage message w)) = myPlayer (this w) /\
  cameraX (this (onmessage message w)) = cameraX (this w) /\
  cameraY (this (onmessage message w)) = cameraY (this w) /\
  playerEmotes (this (onmessage message w)) = playerEmotes (this w) /\
  timers (onmessage message w) = timers w.
Proof. cbv zeta. repeat split. Qed.

(** ** Click to move *)

Lemma insideWorld_test pt g :
  Qle_bool 0 (px pt) && Qle_bool (px pt) (worldWidth g)
  && Qle_bool 0 (py pt) && Qle_bool (py pt) (worldHeight g) = true
  <-> insideWorld pt g.
Proof.
  unfold insideWorld. rewrite !andb_true_iff, !Qle_bool_iff. tauto.
Qed.

(** [Math.round] gives the nearest integer, halves going up. *)
Lemma Math_round_nearest (q : Q) :
  inject_Z (Math_round q) - (1 # 2) <= q /\ q < inject_Z (Math_round q) + (1 # 2).
Proof.
  unfold Math_round.
  pose proof (Qfloor_le (q + (1 # 2))) as Hle.
  pose proof (Qlt_floor (q + (1 # 2))) as Hlt.
  rewrite inject_Z_plus in Hlt. change (inject_Z 1) with 1 in Hlt.
  split; lra.
Qed.

Lemma outbox_ws_send message g :
  ws_open g = true -> outbox (ws_send message g) = (outbox g ++ [message])%list.
Proof.
  unfold ws_open, outbox, ws_send. destruct (ws g) as [s|]; [|discriminate].
  reflexivity.
Qed.

(** C9, as amended: a click sends a move message exactly when the socket is
    open and the click lands inside [0, worldWidth] x [0, worldHeight]; the
    message carries the rounded target; any other click changes nothing. *)
Theorem click_to_move (event : ClickEvent) (g : GameClient) :
  let target := clickTarget event g in
  let message := out_move_to (Math_round (px target)) (Math_round (py target)) in
  (ws_open g = true -> insideWorld target g ->
   onClick event g = ws_send message g /\
   outbox (onClick event g) = (outbox g ++ [message])%list) /\
  (ws_open g = false \/ ~ insideWorld target g -> onClick event g = g).
Proof.
  cbv zeta. unfold onClick. fold (clickTarget event g).
  pose proof (insideWorld_test (clickTarget event g) g) as Htest.
  destruct (_ && _) eqn:Hin.
  - split.
    + intros Hopen _. unfold sendMoveCommand. rewrite Hopen. cbn [negb].
      split; [reflexivity | now apply outbox_ws_send].
    + intros [Hclosed | Hout].
      * unfold sendMoveCommand. now rewrite Hclosed.
      * exfalso. apply Hout, Htest. reflexivity.
  - split.
    + intros _ Hinside. apply Htest in Hinside. discriminate.
    + reflexivity.
Qed.

(** The theorem at a click on (410, 320.5) of a canvas at (10, 10) with the
    camera at (1248, 1448): the target (1648, 1758.5) goes out as
    (1648, 1759). *)
Lemma click_to_move_witness :
  let g :=
    with_ws (Some openSocket)
      (centerViewportOnPlayer (clientAt 800 600 (somePlayer "me" 2040 2040))) in
  outbox (onClick (mkClickEvent 410 (641 # 2) 10 10) g) = [out_move_to 1648 1759].
Proof.
  intros g.
  destruct (click_to_move (mkClickEvent 410 (641 # 2) 10 10) g) as [Hsend _].
  destruct Hsend as [_ Hout].
  - reflexivity.
  - unfold insideWorld. vm_compute. repeat split; discriminate.
  - exact Hout.
Defined.

(** The claim as worded fails where the socket is not open: the click lands
    inside the world and nothing is sent. *)
Lemma click_inside_unsent :
  ~ click_sends_iff_inside (mkClickEvent 410 310 10 10)
      (clientAt 800 600 (somePlayer "me" 2040 2040)).
Proof.
  unfold click_sends_iff_inside. intros [Hsent _].
  assert (Hin : insideWorld
                  (clickTarget (mkClickEvent 410 310 10 10)
                     (clientAt 800 600 (somePlayer "me" 2040 2040)))
                  (clientAt 800 600 (somePlayer "me" 2040 2040))).
  { unfold insideWorld. vm_compute. repeat split; discriminate. }
  specialize (Hsent Hin). vm_compute in Hsent. discriminate.
Qed.

(** ** Drawing a player *)

Lemma frameAt_mod {A : Type} (frames : list A) (n : Z) :
  frames <> [] -> (0 <= n)%Z ->
  frameAt frames n =
  nth_error frames (Z.to_nat (n mod Z.of_nat (List.length frames))) /\
  (Z.to_nat (n mod Z.of_nat (List.length frames)) < List.length frames)%nat.
Proof.
  intros Hne Hn. unfold frameAt.
  assert (Hlen : (0 < Z.of_nat (List.length frames))%Z).
  { destruct frames; [congruence | simpl; lia]. }
  rewrite Z.rem_mod_nonneg by lia.
  pose proof (Z.mod_pos_bound n _ Hlen) as Hb.
  destruct (Z.ltb_spec (n mod Z.of_nat (List.length frames)) 0); [lia|].
  split; [reflexivity | lia].
Qed.

Lemma drawPlayer_steps (player : Player.t) (g : GameClient) :
  inView player g = true ->
  drawPlayer player g =
  match JsMap.get (Player.avatar player) (avatars g) with
  | Some (Loaded avatar) =>
      match byDirection (images avatar) (resolvedDirection player) with
      | Some (f :: fs) =>
          match frameAt (f :: fs) (frameIndexOf player) with
          | Some avatarImage =>
              if Image.complete avatarImage then sprite player avatarImage g else g
          | None => g
          end
      | _ => g
      end
  | _ => g
  end.
Proof.
  unfold inView, drawPlayer, resolvedDirection. intros Hview.
  apply negb_true_iff in Hview. rewrite Hview.
  destruct (JsMap.get _ _) as [[d|a]|]; try reflexivity.
  destruct (byDirection _ _) as [[|f fs]|]; try reflexivity.
  destruct (frameAt _ _) as [img|]; try reflexivity.
  destruct (Image.complete img); cbn [negb]; [|reflexivity].
  unfold sprite. destruct (String.eqb (Player.facing player) "west"); reflexivity.
Qed.

(** C8: for a player in view,
    - the frames are those of the resolved direction, which for a player
      facing west is east, whatever the avatar holds for north and south;
    - the frame painted is the one at [animationFrame mod frameCount];
    - the player is skipped, the state staying as it is, when the avatar is
      absent or holds no images yet, when the frame set of the resolved
      direction is absent or empty, and when the selected frame is not
      loaded. *)
Theorem draw_player_frame (player : Player.t) (g : GameClient) :
  inView player g = true ->
  (Player.facing player = "west" -> resolvedDirection player = "east") /\
  (forall avatar frames avatarImage,
     JsMap.get (Player.avatar player) (avatars g) = Some (Loaded avatar) ->
     byDirection (images avatar) (resolvedDirection player) = Some frames ->
     frames <> [] ->
     (0 <= frameIndexOf player)%Z ->
     nth_error frames
       (Z.to_nat (frameIndexOf player mod Z.of_nat (List.length frames)))
     = Some avatarImage ->
     Image.complete avatarImage = true ->
     drawPlayer player g = sprite player avatarImage g) /\
  (forall avatar avatarImage,
     Player.facing player = "west" ->
     JsMap.get (Player.avatar player) (avatars g) = Some (Loaded avatar) ->
     east (images avatar) <> [] ->
     (0 <= frameIndexOf player)%Z ->
     nth_error (east (images avatar))
       (Z.to_nat (frameIndexOf player mod Z.of_nat (List.length (east (images avatar)))))
     = Some avatarImage ->
     Image.complete avatarImage = true ->
     drawPlayer player g = sprite player avatarImage g) /\
  (JsMap.get (Player.avatar player) (avatars g) = None -> drawPlayer player g = g) /\
  (forall d,
     JsMap.get (Player.avatar player) (avatars g) = Some (Raw d) ->
     drawPlayer player g = g) /\
  (forall avatar,
     JsMap.get (Player.avatar player) (avatars g) = Some (Loaded avatar) ->
     byDirection (images avatar) (resolvedDirection player) = None \/
     byDirection (images avatar) (resolvedDirection player) = Some [] ->
     drawPlayer player g = g) /\
  (forall avatar frames avatarImage,
     JsMap.get (Player.avatar player) (avatars g) = Some (Loaded avatar) ->
     byDirection (images avatar) (resolvedDirection player) = Some frames ->
     frameAt frames (frameIndexOf player) = Some avatarImage ->
     Image.complete avatarImage = false ->
     drawPlayer player g = g).
Proof.
  intros Hview. pose proof (drawPlayer_steps player g Hview) as Hsteps.
  assert (Hdraw : forall avatar frames avatarImage,
     JsMap.get (Player.avatar player) (avatars g) = Some (Loaded avatar) ->
     byDirection (images avatar) (resolvedDirection player) = Some frames ->
     frames <> [] ->
     (0 <= frameIndexOf player)%Z ->
     nth_error frames
       (Z.to_nat (frameIndexOf player mod Z.of_nat (List.length frames)))
     = Some avatarImage ->
     Image.complete avatarImage = true ->
     drawPlayer player g = sprite player avatarImage g).
  { intros avatar frames img Hget Hdir Hne Hidx Hnth Hcomplete.
    rewrite Hsteps, Hget, Hdir.
    destruct frames as [|f fs]; [congruence|].
    destruct (frameAt_mod (f :: fs) (frameIndexOf player) Hne Hidx) as [-> _].
    now rewrite Hnth, Hcomplete. }
  split; [|split; [|split; [|split; [|split; [|split]]]]].
  - unfold resolvedDirection. now intros ->.
  - exact Hdraw.
  - intros avatar img Hwest Hget Hne Hidx Hnth Hcomplete.
    apply (Hdraw avatar (east (images avatar)) img); try assumption.
    unfold resolvedDirection. rewrite Hwest. reflexivity.
  - intros Hget. now rewrite Hsteps, Hget.
  - intros d Hget. now rewrite Hsteps, Hget.
  - intros avatar Hget [Hdir|Hdir]; now rewrite Hsteps, Hget, Hdir.
  - intros avatar frames img Hget Hdir Hframe Hcomplete.
    rewrite Hsteps, Hget, Hdir.
    destruct frames as [|f fs]; [reflexivity|]. now rewrite Hframe, Hcomplete.
Qed.

(** The theorem at the player facing west with [animationFrame = 3]: frame
    [3 mod 2 = 1] of east is painted; with the avatar's images still to be
    made, and with no avatar, the player is skipped. *)
Lemma draw_player_frame_witness :
  drawPlayer westward (clientWith (Loaded eastOnly) westward)
  = sprite westward (Image.mk "e1" true 32 48) (clientWith (Loaded eastOnly) westward) /\
  drawPlayer westward (clientWith (Raw (mkAvatarData "default" (mkDirectional [] [] ["e0"]))) westward)
  = clientWith (Raw (mkAvatarData "default" (mkDirectional [] [] ["e0"]))) westward /\
  drawPlayer westward (clientAt 800 600 westward) = clientAt 800 600 westward.
Proof.
  split; [|split].
  - assert (Hview : inView westward (clientWith (Loaded eastOnly) westward) = true)
      by reflexivity.
    destruct (draw_player_frame westward _ Hview) as (_ & _ & Hwest & _).
    apply (Hwest eastOnly); try reflexivity; vm_compute; discriminate.
  - assert (Hview : inView westward
                      (clientWith (Raw (mkAvatarData "default" (mkDirectional [] [] ["e0"])))
                         westward) = true) by reflexivity.
    destruct (draw_player_frame westward _ Hview) as (_ & _ & _ & _ & Hraw & _).
    apply (Hraw (mkAvatarData "default" (mkDirectional [] [] ["e0"]))). reflexivity.
  - assert (Hview : inView westward (clientAt 800 600 westward) = true) by reflexivity.
    destruct (draw_player_frame westward _ Hview) as (_ & _ & _ & Habsent & _).
    apply Habsent. reflexivity.
Defined.

(** ** Loading the avatars *)

Lemma loadAvatarImage_frame avatarData g :
  snd (loadAvatarImage avatarData g)
  = with_avatars (avatars (snd (loadAvatarImage avatarData g))) g.
Proof. destruct avatarData; destruct g; reflexivity. Qed.

Lemma loadAvatarImages_from_frame fuel :
  forall i g r,
    loadAvatarImages_from fuel i g = Some r ->
    snd r = with_avatars (avatars (snd r)) g.
Proof.
  induction fuel as [|fuel IH]; intros i g r H; simpl in H; [discriminate|].
  destruct (nth_error (avatars g) i) as [[k a]|].
  - pose proof (loadAvatarImage_frame a g) as Hone.
    destruct (loadAvatarImage a g) as [[|e] g1]; simpl in Hone.
    + apply IH in H. rewrite H, Hone. reflexivity.
    + inversion H; subst. exact Hone.
  - inversion H; subst. destruct g; reflexivity.
Qed.

Lemma loadAvatarImages_frame g :
  snd (loadAvatarImages g) = with_avatars (avatars (snd (loadAvatarImages g))) g.
Proof.
  unfold loadAvatarImages.
  destruct (loadAvatarImages_from _ 0 g) as [r|] eqn:E.
  - now apply loadAvatarImages_from_frame in E.
  - destruct g; reflexivity.
Qed.

Lemma nth_error_set {V : Type} (k : string) (v : V) (m : JsMap.t V) :
  forall j e, nth_error (JsMap.set k v m) j = Some e ->
              e = (k, v) \/ nth_error m j = Some e.
Proof.
  induction m as [|[k' v'] m IH]; intros j e H; simpl in H.
  - destruct j as [|j]; simpl in H; [left; congruence|].
    destruct j; discriminate.
  - destruct (String.eqb k k').
    + destruct j as [|j]; simpl in *; [left; congruence | now right].
    + destruct j as [|j]; simpl in *; [now right | now apply IH].
Qed.

Lemma loadedFrom_set n name l m :
  loadedFrom n m -> loadedFrom n (JsMap.set name (Loaded l) m).
Proof.
  intros H j k a Hj Hnth.
  destruct (nth_error_set _ _ _ _ _ Hnth) as [E|E].
  - inversion E; subst. now exists l.
  - now apply (H j k a).
Qed.

Lemma loadAvatarImages_from_enough n fuel :
  forall i g,
    loadedFrom n (avatars g) -> (n - i < fuel)%nat ->
    loadAvatarImages_from fuel i g <> None.
Proof.
  induction fuel as [|fuel IH]; intros i g Hloaded Hfuel; [lia|]. simpl.
  destruct (nth_error (avatars g) i) as [[k a]|] eqn:Hnth; [|discriminate].
  destruct a as [d|l]; simpl; [|discriminate].
  assert (i < n)%nat.
  { destruct (Nat.lt_ge_cases i n) as [Hlt|Hge]; [assumption|].
    destruct (Hloaded i k (Raw d) Hge Hnth) as [l Hl]. discriminate. }
  apply IH; [|lia]. simpl. now apply loadedFrom_set.
Qed.

(** The walk over [this.avatars] ends within the bound given to it. *)
Lemma loadAvatarImages_total g :
  exists r, loadAvatarImages_from (S (List.length (avatars g))) 0 g = Some r
            /\ loadAvatarImages g = r.
Proof.
  unfold loadAvatarImages.
  destruct (loadAvatarImages_from _ 0 g) as [r|] eqn:E.
  - now exists r.
  - exfalso. revert E. apply (loadAvatarImages_from_enough (List.length (avatars g))).
    + intros j k a Hj Hnth. apply nth_error_None in Hj. congruence.
    + lia.
Qed.

Lemma loadAvatarImage_keeps k avatarData g :
  JsMap.has k (avatars g) = true ->
  JsMap.has k (avatars (snd (loadAvatarImage avatarData g))) = true.
Proof.
  destruct avatarData as [d|l]; simpl; [|trivial].
  apply JsMapFacts.has_set.
Qed.

Lemma loadAvatarImages_from_keeps k fuel :
  forall i g r,
    loadAvatarImages_from fuel i g = Some r ->
    JsMap.has k (avatars g) = true -> JsMap.has k (avatars (snd r)) = true.
Proof.
  induction fuel as [|fuel IH]; intros i g r H Hk; simpl in H; [discriminate|].
  destruct (nth_error (avatars g) i) as [[k' a]|].
  - pose proof (loadAvatarImage_keeps k a g Hk) as Hone.
    destruct (loadAvatarImage a g) as [[|e] g1]; simpl in Hone.
    + now apply (IH _ _ _ H).
    + inversion H; subst. exact Hone.
  - inversion H; subst. exact Hk.
Qed.

Lemma loadAvatarImages_keeps k g :
  JsMap.has k (avatars g) = true ->
  JsMap.has k (avatars (snd (loadAvatarImages g))) = true.
Proof.
  destruct (loadAvatarImages_total g) as (r & Hr & ->).
  now apply (loadAvatarImages_from_keeps k _ _ _ _ Hr).
Qed.

(** ** The welcome *)

(** From there on only the avatars and the canvas are written, whichever
    way the handler ends. *)
Lemma handleJoinGameSuccess_state playerId msg_players msg_avatars g :
  let g' := snd (handleJoinGameSuccess playerId msg_players msg_avatars g) in
  g' = with_canvas (canvas g')
         (with_avatars (avatars g') (joined playerId msg_players msg_avatars g)).
Proof.
  cbv zeta. unfold handleJoinGameSuccess. fold (joined playerId msg_players msg_avatars g).
  pose proof (loadAvatarImages_frame (joined playerId msg_players msg_avatars g)) as Hload.
  destruct (loadAvatarImages _) as [[|e] g1]; simpl in Hload |- *.
  - destruct (myPlayer g1); simpl.
    + rewrite render_avatars, <- Hload. apply render_frame.
    + rewrite <- Hload. apply painted_refl.
  - rewrite <- Hload. apply painted_refl.
Qed.

(** C1, as amended: a welcome upserts the players and avatars of the message
    into the registry and the avatar map without clearing them.  Afterwards
    every player of the message is in the registry, every other id holds what
    it held before, every avatar name of the message and every avatar name
    known before is known, the local identity is the message's [playerId],
    [myPlayer] is the registry's entry for it, and when there is such an
    entry the camera is the clamped offset centred on it.  On an empty
    registry the result is exactly the players of the message. *)
Theorem welcome_upserts
    (w : World) (playerId : string) (msg_players : list (string * Player.t))
    (msg_avatars : list (string * AvatarData)) (error : string) :
  NoDup (JsMap.keys msg_players) ->
  let g := this w in
  let g' := this (onmessage (join_game true playerId msg_players msg_avatars error) w) in
  (forall id p, In (id, p) msg_players -> JsMap.get id (players g') = Some p) /\
  (forall id, ~ In id (JsMap.keys msg_players) ->
              JsMap.get id (players g') = JsMap.get id (players g)) /\
  (forall name d, In (name, d) msg_avatars -> JsMap.has name (avatars g') = true) /\
  (forall name, JsMap.has name (avatars g) = true -> JsMap.has name (avatars g') = true) /\
  myPlayerId g' = Some playerId /\
  myPlayer g' = JsMap.get playerId (players g') /\
  (forall p, JsMap.get playerId (players g') = Some p ->
             cameraX g' = clamp (Player.x p - viewportWidth g / 2)
                                (worldWidth g - viewportWidth g) /\
             cameraY g' = clamp (Player.y p - viewportHeight g / 2)
                                (worldHeight g - viewportHeight g)) /\
  (players g = JsMap.empty -> registryIs msg_players g').
Proof.
  intros Hnd g g'.
  assert (Hg' : g' = snd (handleJoinGameSuccess playerId msg_players msg_avatars g)).
  { unfold g', onmessage, handleServerMessage.
    destruct (handleJoinGameSuccess _ _ _ _); reflexivity. }
  pose proof (handleJoinGameSuccess_state playerId msg_players msg_avatars g) as Hstate.
  cbv zeta in Hstate. rewrite <- Hg' in Hstate.
  assert (Hplayers : players g' = JsMap.setAll msg_players (players g)).
  { rewrite Hstate. unfold joined, centerViewportOnPlayer. cbn.
    destruct (JsMap.get playerId _); reflexivity. }
  assert (Hmine : myPlayer g' = JsMap.get playerId (JsMap.setAll msg_players (players g))).
  { rewrite Hstate. unfold joined, centerViewportOnPlayer. cbn.
    destruct (JsMap.get playerId _); reflexivity. }
  assert (Hin : forall id p, In (id, p) msg_players -> JsMap.get id (players g') = Some p).
  { intros id p Hp. rewrite Hplayers. now apply JsMapFacts.get_setAll_in. }
  assert (Hout : forall id, ~ In id (JsMap.keys msg_players) ->
                            JsMap.get id (players g') = JsMap.get id (players g)).
  { intros id Hid. rewrite Hplayers. now apply JsMapFacts.get_setAll_other. }
  assert (Hkeeps : forall name,
            JsMap.has name
              (JsMap.setAll (map (fun e => (fst e, Raw (snd e))) msg_avatars) (avatars g))
            = true ->
            JsMap.has name (avatars g') = true).
  { intros name Hname. rewrite Hg'. unfold handleJoinGameSuccess.
    fold (joined playerId msg_players msg_avatars g).
    assert (Hj : JsMap.has name (avatars (joined playerId msg_players msg_avatars g)) = true).
    { unfold joined, centerViewportOnPlayer. cbn.
      destruct (JsMap.get playerId _); cbn; exact Hname. }
    pose proof (loadAvatarImages_keeps name _ Hj) as Hload.
    destruct (loadAvatarImages _) as [[|e] g1]; simpl in Hload |- *; [|exact Hload].
    destruct (myPlayer g1); simpl; [now rewrite render_avatars | exact Hload]. }
  split; [exact Hin|]. split; [exact Hout|].
  split; [|split; [|split; [|split; [|split]]]].
  - intros name d Hd. apply Hkeeps.
    apply (JsMapFacts.has_setAll_in _ name (Raw d)).
    change (name, Raw d) with ((fun e : string * AvatarData => (fst e, Raw (snd e))) (name, d)).
    now apply in_map.
  - intros name Hname. apply Hkeeps. now apply JsMapFacts.has_setAll.
  - rewrite Hstate. unfold joined, centerViewportOnPlayer. cbn.
    destruct (JsMap.get playerId _); reflexivity.
  - now rewrite Hmine, Hplayers.
  - intros p Hp. rewrite Hplayers in Hp. rewrite Hstate.
    unfold joined, centerViewportOnPlayer. cbn. rewrite Hp. split; reflexivity.
  - intros Hempty id.
    destruct (JsMap.get id msg_players) as [p|] eqn:Hget.
    + apply Hin. clear -Hget. induction msg_players as [|[k v] l IH]; simpl in *.
      * discriminate.
      * destruct (String.eqb_spec id k) as [->|Hne].
        -- inversion Hget; subst. now left.
        -- right. now apply IH.
    + rewrite Hout by now apply JsMapFacts.get_None_iff.
      now rewrite Hempty.
Qed.

(** ** Timers and emotes *)

Lemma fire_timers w tm : timers (fire w tm) = timers w.
Proof. unfold fire. destruct (callback tm); reflexivity. Qed.

Lemma fire_emoteOf playerId w tm :
  emoteOf playerId (fire w tm)
  = if expires playerId tm then None else emoteOf playerId w.
Proof.
  unfold fire, expires, emoteOf. destruct (callback tm) as [target]. simpl.
  rewrite render_playerEmotes. simpl.
  destruct (String.eqb_spec target playerId) as [->|Hne].
  - apply JsMapFacts.get_delete_same.
  - apply JsMapFacts.get_delete_other. congruence.
Qed.

Lemma fold_fire_timers l : forall w, timers (fold_left fire l w) = timers w.
Proof.
  induction l as [|tm l IH]; intros w; simpl; [reflexivity|].
  now rewrite IH, fire_timers.
Qed.

Lemma fold_fire_absent playerId l :
  forall w, emoteOf playerId w = None -> emoteOf playerId (fold_left fire l w) = None.
Proof.
  induction l as [|tm l IH]; intros w H; simpl; [assumption|].
  apply IH. rewrite fire_emoteOf. now destruct (expires playerId tm).
Qed.

Lemma fold_fire_expired playerId l :
  forall w, existsb (expires playerId) l = true ->
            emoteOf playerId (fold_left fire l w) = None.
Proof.
  induction l as [|tm l IH]; intros w H; simpl in *; [discriminate|].
  destruct (expires playerId tm) eqn:E.
  - apply fold_fire_absent. now rewrite fire_emoteOf, E.
  - now apply IH.
Qed.

Lemma fold_fire_spared playerId l :
  forall w, existsb (expires playerId) l = false ->
            emoteOf playerId (fold_left fire l w) = emoteOf playerId w.
Proof.
  induction l as [|tm l IH]; intros w H; simpl in *; [reflexivity|].
  apply orb_false_iff in H. destruct H as [E H].
  rewrite IH by assumption. now rewrite fire_emoteOf, E.
Qed.

Lemma In_insertTimer tm tm' l : In tm' (insertTimer tm l) <-> tm' = tm \/ In tm' l.
Proof.
  induction l as [|h l IH]; simpl.
  - intuition congruence.
  - destruct (due tm <=? due h)%Z; simpl; [intuition congruence|].
    rewrite IH. intuition congruence.
Qed.

Lemma In_sortTimers tm l : In tm (sortTimers l) <-> In tm l.
Proof.
  induction l as [|h l IH]; simpl; [tauto|].
  rewrite In_insertTimer, IH. intuition congruence.
Qed.

Lemma existsb_sortTimers f l : existsb f (sortTimers l) = existsb f l.
Proof.
  apply eq_true_iff_eq. rewrite !existsb_exists.
  split; intros (tm & Hin & Hf); exists tm; split; try assumption;
    now apply In_sortTimers.
Qed.

Lemma advance_timers now w :
  timers (advance now w) = filter (fun tm => negb (due tm <=? now)%Z) (timers w).
Proof. unfold advance. simpl. now rewrite fold_fire_timers. Qed.

Lemma advance_clock now w : clock (advance now w) = now.
Proof. reflexivity. Qed.

(** A timer for the player that is due by [now] has removed the emote. *)
Lemma advance_expired playerId now w :
  existsb (fun tm => expires playerId tm && (due tm <=? now)%Z) (timers w) = true ->
  emoteOf playerId (advance now w) = None.
Proof.
  intros H. unfold advance, emoteOf. simpl.
  apply (fold_fire_expired playerId). rewrite existsb_sortTimers.
  apply existsb_exists in H. destruct H as (tm & Hin & Htm).
  apply andb_true_iff in Htm. destruct Htm as [Hexp Hdue].
  apply existsb_exists. exists tm. split; [|assumption].
  apply filter_In. now split.
Qed.

(** With no such timer the emote is as it was. *)
Lemma advance_spared playerId now w :
  existsb (fun tm => expires playerId tm && (due tm <=? now)%Z) (timers w) = false ->
  emoteOf playerId (advance now w) = emoteOf playerId w.
Proof.
  intros H. unfold advance, emoteOf. simpl.
  change (emoteOf playerId
            (fold_left fire
               (sortTimers (filter (fun tm => (due tm <=? now)%Z) (timers w)))
               (mkWorld (this w) (clock w)
                  (filter (fun tm => negb (due tm <=? now)%Z) (timers w))))
          = emoteOf playerId
              (mkWorld (this w) (clock w)
                 (filter (fun tm => negb (due tm <=? now)%Z) (timers w)))).
  apply fold_fire_spared. rewrite existsb_sortTimers.
  destruct (existsb _ (filter _ _)) eqn:E; [|reflexivity].
  apply existsb_exists in E. destruct E as (tm & Hin & Hexp).
  apply filter_In in Hin. destruct Hin as [Hin Hdue].
  assert (existsb (fun tm => expires playerId tm && (due tm <=? now)%Z) (timers w) = true).
  { apply existsb_exists. exists tm. split; [assumption|]. now rewrite Hexp, Hdue. }
  congruence.
Qed.

Lemma hasEmote_of playerId kind w :
  hasEmote playerId kind (this w)
  = match emoteOf playerId w with
    | Some e => String.eqb (emote_type e) kind
    | None => false
    end.
Proof. reflexivity. Qed.

Lemma deliver_emote now playerId kind w :
  deliver now (emote playerId kind) w = handlePlayerEmote playerId kind (advance now w).
Proof. reflexivity. Qed.

Lemma deliver_jump now playerId w :
  emoteOf playerId (deliver now (emote playerId "jump") w)
  = Some (mkEmote "jump" now 1500 3) /\
  timers (deliver now (emote playerId "jump") w)
  = (filter (fun tm => negb (due tm <=? now)%Z) (timers w)
     ++ [mkTimer (now + 1500) (expireEmote playerId)])%list.
Proof.
  rewrite deliver_emote. unfold handlePlayerEmote, startEmoteAnimation, emoteOf.
  cbn [String.eqb Ascii.eqb Bool.eqb]. cbn [on_this setTimeout this timers clock].
  rewrite render_playerEmotes. cbn [with_playerEmotes playerEmotes].
  rewrite JsMapFacts.get_set_same, advance_timers. split; reflexivity.
Qed.

(** C4, as amended: an emote event of kind ["jump"] that arrives at [t0]
    records a jump with start time [t0] and duration 1500 and sets its
    removal for [t0 + 1500], and the jump is active at no time from
    [t0 + 1500] on; with no removal for the player still to come, it is
    active at every time before [t0 + 1500].  An event of any other kind
    records nothing and sets no timer. *)
Theorem emote_starts_jump (w : World) (playerId : string) (t0 : Z) :
  let w' := deliver t0 (emote playerId "jump") w in
  emoteOf playerId w' = Some (mkEmote "jump" t0 1500 3) /\
  In (mkTimer (t0 + 1500) (expireEmote playerId)) (timers w') /\
  (noExpiryPending playerId t0 w = true ->
   forall t, (t < t0 + 1500)%Z -> isActive playerId "jump" t w' = true) /\
  (forall t, (t0 + 1500 <= t)%Z -> isActive playerId "jump" t w' = false) /\
  (forall kind, kind <> "jump" ->
     let w'' := deliver t0 (emote playerId kind) w in
     playerEmotes (this w'') = playerEmotes (this (advance t0 w)) /\
     timers w'' = timers (advance t0 w)).
Proof.
  intros w'. destruct (deliver_jump t0 playerId w) as [Hemote Htimers].
  fold w' in Hemote, Htimers.
  split; [exact Hemote|]. split; [|split; [|split]].
  - rewrite Htimers. apply in_or_app. right. now left.
  - intros Hnone t Ht. unfold isActive. rewrite hasEmote_of.
    rewrite advance_spared; [now rewrite Hemote|].
    rewrite Htimers, existsb_app. apply orb_false_iff. split.
    + destruct (existsb _ (filter _ _)) eqn:E; [|reflexivity].
      apply existsb_exists in E. destruct E as (tm & Hin & Htm).
      apply filter_In in Hin. destruct Hin as [Hin Hlate].
      apply andb_true_iff in Htm. destruct Htm as [Hexp _].
      unfold noExpiryPending in Hnone. apply negb_true_iff in Hnone.
      assert (existsb (fun tm => expires playerId tm && negb (due tm <=? t0)%Z)
                (timers w) = true).
      { apply existsb_exists. exists tm. split; [assumption|]. now rewrite Hexp, Hlate. }
      congruence.
    + simpl. rewrite orb_false_r. apply andb_false_iff. right.
      apply Z.leb_gt. lia.
  - intros t Ht. unfold isActive. rewrite hasEmote_of.
    rewrite advance_expired; [reflexivity|].
    rewrite Htimers, existsb_app. apply orb_true_iff. right.
    simpl. unfold expires. simpl. rewrite String.eqb_refl. simpl.
    rewrite orb_false_r. apply Z.leb_le. lia.
  - intros kind Hkind w''. unfold w''. rewrite deliver_emote.
    unfold handlePlayerEmote, startEmoteAnimation.
    apply String.eqb_neq in Hkind. rewrite Hkind. simpl.
    rewrite render_playerEmotes. split; reflexivity.
Qed.

(** The theorem at a jump of ["me"] arriving at 1000 in [othersJumping],
    where the removal of another player's jump is pending: recorded with
    start 1000, active at 2499, removed at 2500. *)
Lemma emote_starts_jump_witness :
  let w' := deliver 1000 (emote "me" "jump") othersJumping in
  emoteOf "me" w' = Some (mkEmote "jump" 1000 1500 3) /\
  isActive "me" "jump" 2499 w' = true /\
  isActive "me" "jump" 2500 w' = false.
Proof.
  intros w'.
  assert (Hnone : noExpiryPending "me" 1000 othersJumping = true) by reflexivity.
  destruct (emote_starts_jump othersJumping "me" 1000)
    as (Hemote & _ & Hactive & Hgone & _).
  split; [exact Hemote|]. split.
  - apply (Hactive Hnone). lia.
  - apply Hgone. lia.
Defined.

(** The claim as worded fails for a kind other than ["jump"]: nothing is
    recorded for it. *)
Lemma emote_other_kind_not_started : ~ emote_starts_effect "me" "wave" 1000 started.
Proof.
  intros H. specialize (H 1000%Z).
  assert (Hnot : isActive "me" "wave" 1000 (deliver 1000 (emote "me" "wave") started)
                 = false) by reflexivity.
  rewrite Hnot in H. assert (false = true) by (apply H; lia). discriminate.
Qed.

(** What the code does instead: the second start replaces the first effect,
    and the removal set by the first start takes the second effect away at
    [t0 + 1500]. *)
Lemma first_expiry_removes_restart (w : World) (playerId : string) (t0 t1 : Z) :
  (t0 < t1 < t0 + 1500)%Z ->
  let w2 := deliver t1 (emote playerId "jump") (deliver t0 (emote playerId "jump") w) in
  emoteOf playerId w2 = Some (mkEmote "jump" t1 1500 3) /\
  (forall t, (t0 + 1500 <= t)%Z -> isActive playerId "jump" t w2 = false).
Proof.
  intros Ht w2.
  destruct (deliver_jump t0 playerId w) as [_ Htimers1].
  destruct (deliver_jump t1 playerId (deliver t0 (emote playerId "jump") w))
    as [Hemote Htimers2].
  fold w2 in Hemote, Htimers2.
  split; [exact Hemote|].
  intros t Hlate. unfold isActive. rewrite hasEmote_of.
  rewrite advance_expired; [reflexivity|].
  apply existsb_exists. exists (mkTimer (t0 + 1500) (expireEmote playerId)). split.
  - rewrite Htimers2. apply in_or_app. left. apply filter_In. split.
    + rewrite Htimers1. apply in_or_app. right. now left.
    + simpl. apply negb_true_iff, Z.leb_gt. lia.
  - unfold expires. simpl. rewrite String.eqb_refl. simpl. apply Z.leb_le. lia.
Qed.

(** C2 on the code: jumps of ["me"] arrive at 0 and at 1000.  The second
    replaces the first and should last until 2500; it is active at 1499 and
    gone at 1500, when the removal set by the first one fires. *)
Theorem second_emote_cut_short :
  let w2 := deliver 1000 (emote "me" "jump") (deliver 0 (emote "me" "jump") started) in
  emoteOf "me" w2 = Some (mkEmote "jump" 1000 1500 3) /\
  isActive "me" "jump" 1499 w2 = true /\
  isActive "me" "jump" 1500 w2 = false /\
  isActive "me" "jump" 2499 w2 = false /\
  ~ restart_lasts "me" 0 1000 started.
Proof.
  cbv zeta.
  destruct (first_expiry_removes_restart started "me" 0 1000) as [Hemote Hgone]; [lia|].
  split; [exact Hemote|]. split; [reflexivity|].
  split; [apply Hgone; lia|]. split; [apply Hgone; lia|].
  intros Hlasts. unfold restart_lasts in Hlasts. cbv zeta in Hlasts.
  specialize (Hlasts 1500%Z). rewrite Hgone in Hlasts by lia.
  assert (false = true) by (apply Hlasts; lia). discriminate.
Qed.

(** ** The welcome, on examples *)

(** The theorem at the first welcome, with two players: both are in the
    registry, the local identity is ["me"], and the camera is at
    (1248, 1448). *)
Lemma welcome_upserts_witness :
  let g' :=
    this (onmessage (welcome "me" [("me", somePlayer "me" 2040 2040);
                                   ("you", somePlayer "you" 10 10)]) started) in
  JsMap.get "you" (players g') = Some (somePlayer "you" 10 10) /\
  myPlayerId g' = Some "me" /\
  myPlayer g' = Some (somePlayer "me" 2040 2040) /\
  cameraX g' == 1248 /\ cameraY g' == 1448 /\
  registryIs [("me", somePlayer "me" 2040 2040); ("you", somePlayer "you" 10 10)] g'.
Proof.
  intros g'.
  assert (Hnd : NoDup (JsMap.keys [("me", somePlayer "me" 2040 2040);
                                   ("you", somePlayer "you" 10 10)])).
  { repeat constructor; simpl; intuition discriminate. }
  destruct (welcome_upserts started "me" _ [("default", defaultAvatar)] "" Hnd)
    as (Hin & _ & _ & _ & Hid & Hmine & Hcam & Hfresh).
  fold (welcome "me" [("me", somePlayer "me" 2040 2040);
                      ("you", somePlayer "you" 10 10)]) in Hin, Hid, Hmine, Hcam, Hfresh.
  fold g' in Hin, Hid, Hmine, Hcam, Hfresh.
  assert (Hme : JsMap.get "me" (players g') = Some (somePlayer "me" 2040 2040)).
  { apply Hin. now left. }
  split; [apply Hin; right; now left|]. split; [exact Hid|].
  split; [now rewrite Hmine|].
  destruct (Hcam _ Hme) as [Hx Hy]. rewrite Hx, Hy.
  split; [reflexivity|]. split; [reflexivity|].
  apply Hfresh. reflexivity.
Defined.

(** The claim as worded fails on a second welcome (the one after a
    reconnection): the player of the first is still in the registry. *)
Lemma welcome_keeps_old_players :
  let w1 := onmessage (welcome "old" [("old", somePlayer "old" 10 10)]) started in
  ~ registryIs [("me", somePlayer "me" 2040 2040)]
      (this (onmessage (welcome "me" [("me", somePlayer "me" 2040 2040)]) w1)).
Proof.
  intros w1 H. specialize (H "old"). vm_compute in H. discriminate.
Qed.

(** ** The local player *)

(** [handlePlayersMoved] keeps the two together. *)
Lemma handlePlayersMoved_synced msg_players g :
  localRefSynced g -> localRefSynced (handlePlayersMoved msg_players g).
Proof.
  unfold handlePlayersMoved, localRefSynced.
  rewrite render_myPlayer, render_myPlayerId, render_players.
  revert g. induction msg_players as [|[k pd] l IH]; intros g H; simpl; [exact H|].
  apply IH. unfold isMyPlayerId. cbn [myPlayerId with_players].
  destruct (myPlayerId g) as [mine|] eqn:Hid.
  - destruct (String.eqb_spec k mine) as [->|Hne].
    + unfold centerViewportOnPlayer. cbn. rewrite Hid.
      now rewrite JsMapFacts.get_set_same.
    + cbn. rewrite Hid, H. symmetry. apply JsMapFacts.get_set_other. congruence.
  - cbn. now rewrite Hid.
Qed.

(** [handlePlayerJoined] does not: the registry gets the new object and
    [this.myPlayer] keeps the old one. *)
Lemma handlePlayerJoined_leaves_myPlayer player avatar g :
  let g' := snd (handlePlayerJoined player avatar g) in
  myPlayer g' = myPlayer g /\
  myPlayerId g' = myPlayerId g /\
  JsMap.get (Player.id player) (players g') = Some player.
Proof.
  cbv zeta. unfold handlePlayerJoined. simpl.
  rewrite render_myPlayer, render_myPlayerId, render_players. simpl.
  now rewrite JsMapFacts.get_set_same.
Qed.

(** Nor does [handlePlayerLeft]. *)
Lemma handlePlayerLeft_leaves_myPlayer playerId g :
  let g' := handlePlayerLeft playerId g in
  myPlayer g' = myPlayer g /\
  myPlayerId g' = myPlayerId g /\
  JsMap.get playerId (players g') = None.
Proof.
  cbv zeta. unfold handlePlayerLeft.
  rewrite render_myPlayer, render_myPlayerId, render_players. simpl.
  now rewrite JsMapFacts.get_delete_same.
Qed.

(** C3 on the code: after the welcome of ["me"] at (100, 100), a
    [player_joined] for the id ["me"] at (900, 900) puts the new player in
    the registry while [myPlayer] stays the one at (100, 100). *)
Theorem local_player_stale_after_join :
  let w1 := onmessage (welcome "me" [("me", somePlayer "me" 100 100)]) started in
  let w2 := onmessage (player_joined (somePlayer "me" 900 900) defaultAvatar) w1 in
  localRefSynced (this w1) /\
  myPlayerId (this w2) = Some "me" /\
  myPlayer (this w2) = Some (somePlayer "me" 100 100) /\
  JsMap.get "me" (players (this w2)) = Some (somePlayer "me" 900 900) /\
  ~ localRefSynced (this w2).
Proof.
  cbv zeta.
  split; [reflexivity|]. split; [reflexivity|]. split; [reflexivity|].
  split; [reflexivity|].
  unfold localRefSynced. intros H. vm_compute in H. discriminate.
Qed.

(** ** Along a run *)

(** [clamped] reads the camera, the world and the viewport only. *)
Lemma clamped_same g g' :
  cameraX g' = cameraX g -> cameraY g' = cameraY g ->
  worldWidth g' = worldWidth g -> worldHeight g' = worldHeight g ->
  viewportWidth g' = viewportWidth g -> viewportHeight g' = viewportHeight g ->
  clamped g -> clamped g'.
Proof. unfold clamped. now intros -> -> -> -> -> ->. Qed.

Lemma clamped_render g : clamped g -> clamped (render g).
Proof. apply clamped_painted, painted_render. Qed.

Lemma clamped_joined playerId msg_players msg_avatars g :
  clamped g -> clamped (joined playerId msg_players msg_avatars g).
Proof.
  intros H. unfold joined. apply clamped_centerViewportOnPlayer.
  revert H. now apply clamped_same.
Qed.

Lemma clamped_handlePlayersMoved msg_players g :
  clamped g -> clamped (handlePlayersMoved msg_players g).
Proof.
  intros H. unfold handlePlayersMoved. apply clamped_render. revert g H.
  induction msg_players as [|[k pd] l IH]; intros g H; simpl; [exact H|].
  apply IH. destruct (isMyPlayerId _ _).
  - apply clamped_centerViewportOnPlayer. revert H. now apply clamped_same.
  - revert H. now apply clamped_same.
Qed.

(** The camera stays clamped whatever message arrives. *)
Lemma clamped_onmessage message w :
  clamped (this w) -> clamped (this (onmessage message w)).
Proof.
  intros H. unfold onmessage.
  destruct message as [[|] pid ps avs err | p a | ps | pid | pid kind | action]; simpl;
    try exact H.
  - pose proof (handleJoinGameSuccess_state pid ps avs (this w)) as Hstate.
    cbv zeta in Hstate.
    destruct (handleJoinGameSuccess pid ps avs (this w)) as [c g']. simpl in *.
    rewrite Hstate. apply (clamped_same (joined pid ps avs (this w))); try reflexivity.
    now apply clamped_joined.
  - unfold handlePlayerJoined. simpl. apply clamped_render.
    revert H. now apply clamped_same.
  - now apply clamped_handlePlayersMoved.
  - unfold handlePlayerLeft. apply clamped_render. revert H. now apply clamped_same.
  - unfold handlePlayerEmote, startEmoteAnimation.
    destruct (String.eqb kind "jump"); simpl; apply clamped_render; [|exact H].
    revert H. now apply clamped_same.
Qed.

Lemma clamped_fire w tm : clamped (this w) -> clamped (this (fire w tm)).
Proof.
  intros H. unfold fire. destruct (callback tm). simpl.
  apply clamped_render. revert H. now apply clamped_same.
Qed.

(** And whatever timers fire. *)
Lemma clamped_advance now w : clamped (this w) -> clamped (this (advance now w)).
Proof.
  intros H. unfold advance. simpl.
  set (w0 := mkWorld (this w) (clock w) _).
  assert (H0 : clamped (this w0)) by exact H. clearbody w0.
  revert w0 H0. induction (sortTimers _) as [|tm l IH]; intros w0 H0; simpl.
  - exact H0.
  - apply IH. now apply clamped_fire.
Qed.

Lemma clamped_onClick event g : clamped g -> clamped (onClick event g).
Proof.
  intros H. unfold onClick. destruct (_ && _); [|exact H].
  unfold sendMoveCommand. destruct (negb _); [exact H|].
  unfold ws_send. destruct (ws g); [|exact H]. revert H. now apply clamped_same.
Qed.

Lemma clamped_started : clamped (this started).
Proof. unfold clamped. vm_compute. intuition discriminate. Qed.

(** [myPlayer] and the registry stay together under every message but a
    [player_joined] or a [player_left] that names the local player. *)
Lemma localRefSynced_onmessage message w :
  localRefSynced (this w) ->
  match message with
  | player_joined player _ => isMyPlayerId (Player.id player) (this w) = false
  | player_left playerId => isMyPlayerId playerId (this w) = false
  | _ => True
  end ->
  localRefSynced (this (onmessage message w)).
Proof.
  intros H Hother. unfold onmessage.
  destruct message as [[|] pid ps avs err | p a | ps | pid | pid kind | action]; simpl;
    try exact H.
  - pose proof (handleJoinGameSuccess_state pid ps avs (this w)) as Hstate.
    cbv zeta in Hstate.
    destruct (handleJoinGameSuccess pid ps avs (this w)) as [c g']. simpl in *.
    rewrite Hstate. unfold localRefSynced, joined, centerViewportOnPlayer. cbn.
    destruct (JsMap.get pid _) eqn:E; unfold updateViewport; cbn; now rewrite E.
  - unfold handlePlayerJoined, localRefSynced in *. simpl.
    rewrite render_myPlayer, render_myPlayerId, render_players. simpl.
    unfold isMyPlayerId in Hother. destruct (myPlayerId (this w)) as [mine|]; [|exact H].
    rewrite H. symmetry. apply JsMapFacts.get_set_other.
    apply String.eqb_neq. now rewrite String.eqb_sym.
  - now apply handlePlayersMoved_synced.
  - unfold handlePlayerLeft, localRefSynced in *.
    rewrite render_myPlayer, render_myPlayerId, render_players. simpl.
    unfold isMyPlayerId in Hother. destruct (myPlayerId (this w)) as [mine|]; [|exact H].
    rewrite H. symmetry. apply JsMapFacts.get_delete_other.
    apply String.eqb_neq. now rewrite String.eqb_sym.
  - unfold handlePlayerEmote, startEmoteAnimation, localRefSynced in *.
    destruct (String.eqb kind "jump"); simpl;
      rewrite render_myPlayer, render_myPlayerId, render_players; exact H.
Qed.

(** * Further properties of the code *)

(** ** Rendering *)

Lemma ctxs_app l1 l2 g : ctxs l2 (ctxs l1 g) = ctxs (l1 ++ l2)%list g.
Proof. unfold ctxs. now rewrite fold_left_app. Qed.

Lemma ctxs_nil g : ctxs [] g = g.
Proof. reflexivity. Qed.

Lemma ctx_ctxs op g : ctx op g = ctxs [op] g.
Proof. reflexivity. Qed.

Lemma ctxs_canvas l :
  forall g,
    canvas (ctxs l g)
    = Canvas.mk (Canvas.width (canvas g)) (Canvas.height (canvas g))
        (drawnOps g ++ l)%list.
Proof.
  unfold drawnOps.
  induction l as [|op l IH]; intros g; simpl.
  - rewrite app_nil_r. now destruct (canvas g).
  - unfold ctxs in IH. rewrite IH. simpl. now rewrite <- app_assoc.
Qed.

Lemma drawPlayer_appends player g : exists l, drawPlayer player g = ctxs l g.
Proof.
  unfold drawPlayer.
  destruct (_ || _); [now exists []|].
  destruct (JsMap.get _ _) as [[d|a]|]; try now exists [].
  destruct (byDirection _ _) as [[|f fs]|]; try now exists [].
  destruct (frameAt _ _) as [img|]; try now exists [].
  destruct (negb _); [now exists []|].
  unfold drawPlayerLabel. rewrite !ctx_ctxs.
  destruct (String.eqb (Player.facing player) "west");
    rewrite ?ctx_ctxs, !ctxs_app; eexists; reflexivity.
Qed.

Lemma fold_appends {A : Type} (step : A -> GameClient -> GameClient) (l : list A) :
  (forall a g, exists ops, step a g = ctxs ops g) ->
  forall g, exists ops, fold_left (fun acc a => step a acc) l g = ctxs ops g.
Proof.
  intros Hstep. induction l as [|a l IH]; intros g; simpl.
  - now exists [].
  - destruct (Hstep a g) as [o1 E1]. destruct (IH (step a g)) as [o2 E2].
    exists (o1 ++ o2)%list. now rewrite E2, E1, ctxs_app.
Qed.

Lemma drawPlayers_appends g : exists l, drawPlayers g = ctxs l g.
Proof.
  unfold drawPlayers.
  apply (fold_appends (fun e => drawPlayer (snd e)) (players g)).
  intros e g0. apply drawPlayer_appends.
Qed.

Lemma drawWorldBoundaries_appends g :
  exists l, drawWorldBoundaries g
            = ctxs (strokeStyle "#ff0000" :: lineWidth 2 :: l) g.
Proof.
  unfold drawWorldBoundaries. rewrite !ctx_ctxs.
  repeat match goal with
         | |- context [if ?b then _ else _] => destruct b
         end; rewrite !ctxs_app; eexists; reflexivity.
Qed.

(** X1: [render] only appends calls to the canvas: the size of the canvas,
    the calls made before and every other field of the client stay.  It
    appends nothing while there is no world image; otherwise the calls begin
    with clearing the whole canvas, drawing the part of the world image under
    the camera over the whole viewport, and setting the boundary stroke. *)
Theorem render_appends (g : GameClient) :
  exists l,
    render g
    = with_canvas
        (Canvas.mk (Canvas.width (canvas g)) (Canvas.height (canvas g))
           (drawnOps g ++ l)%list) g /\
    (worldImage g = None -> l = []) /\
    (forall img, worldImage g = Some img ->
       exists rest,
         l = clearRect 0 0 (Canvas.width (canvas g)) (Canvas.height (canvas g))
             :: drawImageSub img (cameraX g) (cameraY g)
                  (viewportWidth g) (viewportHeight g)
                  0 0 (viewportWidth g) (viewportHeight g)
             :: strokeStyle "#ff0000" :: lineWidth 2 :: rest).
Proof.
  assert (Hshape : forall l, ctxs l g
            = with_canvas
                (Canvas.mk (Canvas.width (canvas g)) (Canvas.height (canvas g))
                   (drawnOps g ++ l)%list) g).
  { intros l. rewrite <- ctxs_canvas. apply (painted_ctxs l g g), painted_refl. }
  unfold render. destruct (worldImage g) as [img|] eqn:Himg.
  - rewrite !ctx_ctxs.
    set (g2 := ctxs _ (ctxs _ g)).
    destruct (drawWorldBoundaries_appends g2) as [lb Eb].
    destruct (drawPlayers_appends (drawWorldBoundaries g2)) as [lp Ep].
    rewrite Ep, Eb. unfold g2. rewrite !ctxs_app.
    eexists. split; [apply Hshape|]. split; [discriminate|].
    intros img' E. inversion E; subst. eexists. simpl. reflexivity.
  - exists []. split; [|split; [reflexivity|discriminate]].
    rewrite <- Hshape. reflexivity.
Qed.

(** The theorem at the started client, whose world image is set: the calls
    begin with the clearing of the canvas of 800 by 600 and the drawing of
    the world image under the camera at (0, 0). *)
Lemma render_appends_witness :
  exists l rest,
    render (this started)
    = with_canvas (Canvas.mk 800 600 (drawnOps (this started) ++ l)%list) (this started) /\
    l = clearRect 0 0 800 600
        :: drawImageSub (Image.create "world.jpg") 0 0 800 600 0 0 800 600
        :: strokeStyle "#ff0000" :: lineWidth 2 :: rest.
Proof.
  destruct (render_appends (this started)) as (l & Hshape & _ & Hcalls).
  destruct (Hcalls (Image.create "world.jpg")) as [rest Hrest]; [reflexivity|].
  exists l, rest. split; [exact Hshape | exact Hrest].
Defined.

Lemma Qltb_lt (a b : Q) : Qltb a b = true <-> a < b.
Proof.
  unfold Qltb. rewrite negb_true_iff.
  destruct (Qle_bool b a) eqn:E.
  - apply Qle_bool_iff in E. split; [discriminate | intros H; lra].
  - split; [intros _ | reflexivity].
    apply Qnot_le_lt. intros H. apply Qle_bool_iff in H. congruence.
Qed.

Lemma Qltb_ge (a b : Q) : Qltb a b = false <-> b <= a.
Proof.
  unfold Qltb. rewrite negb_false_iff. apply Qle_bool_iff.
Qed.

Lemma Qle_bool_gt (a b : Q) : Qle_bool a b = false <-> b < a.
Proof.
  rewrite <- Qltb_lt. unfold Qltb. now rewrite negb_true_iff.
Qed.

(** Decide the tests of the drawing code by [lra]. *)
Ltac qtests :=
  repeat match goal with
  | H : Qle_bool _ _ = true |- _ => apply Qle_bool_iff in H
  | H : Qle_bool _ _ = false |- _ => apply Qle_bool_gt in H
  | H : Qltb _ _ = true |- _ => apply Qltb_lt in H
  | H : Qltb _ _ = false |- _ => apply Qltb_ge in H
  | H : Qeq_bool _ _ = true |- _ => apply Qeq_bool_iff in H
  | H : Qeq_bool _ _ = false |- _ => apply Qeq_bool_neq in H
  | H : andb _ _ = true |- _ => apply andb_true_iff in H; destruct H
  | H : orb _ _ = false |- _ => apply orb_false_iff in H; destruct H
  end.

Lemma leftLine_test (c v : Q) :
  0 <= c ->
  Qle_bool 0 (- c) && Qltb (- c) v = Qeq_bool c 0 && Qltb 0 v.
Proof.
  intros Hc.
  destruct (Qle_bool 0 (- c)) eqn:E1, (Qltb (- c) v) eqn:E2,
           (Qeq_bool c 0) eqn:E3, (Qltb 0 v) eqn:E4;
    try reflexivity; exfalso; qtests; lra.
Qed.

Lemma farLine_test (c v world : Q) :
  v <= world -> c <= Qmax 0 (world - v) ->
  Qle_bool 0 (world - c) && Qltb (world - c) v = false.
Proof.
  intros Hv Hc. apply andb_false_iff. right. apply Qltb_ge.
  minmax_cases. lra.
Qed.

(** X2: with the camera clamped and a viewport no larger than the world, the
    right and the bottom boundary of the world are never stroked; the left one
    is stroked (at screen x = 0) exactly when [cameraX] is 0 and the viewport
    has a width, the top one exactly when [cameraY] is 0 and the viewport has
    a height. *)
Theorem boundaries_when_clamped (g : GameClient) :
  clamped g ->
  viewportWidth g <= worldWidth g -> viewportHeight g <= worldHeight g ->
  drawWorldBoundaries g
  = ctxs ([strokeStyle "#ff0000"; lineWidth 2]
          ++ (if Qeq_bool (cameraX g) 0 && Qltb 0 (viewportWidth g)
              then boundaryLine (- cameraX g) 0 (- cameraX g) (viewportHeight g)
              else [])
          ++ (if Qeq_bool (cameraY g) 0 && Qltb 0 (viewportHeight g)
              then boundaryLine 0 (- cameraY g) (viewportWidth g) (- cameraY g)
              else []))%list g.
Proof.
  intros [[Hx0 Hx1] [Hy0 Hy1]] Hw Hh.
  pose proof (leftLine_test (cameraX g) (viewportWidth g) Hx0) as Hleft.
  pose proof (leftLine_test (cameraY g) (viewportHeight g) Hy0) as Htop.
  pose proof (farLine_test (cameraX g) (viewportWidth g) (worldWidth g) Hw Hx1) as Hright.
  pose proof (farLine_test (cameraY g) (viewportHeight g) (worldHeight g) Hh Hy1) as Hbottom.
  unfold drawWorldBoundaries, boundaryLine.
  cbn [cameraX cameraY worldWidth worldHeight viewportWidth viewportHeight ctx with_canvas].
  rewrite Hleft.
  destruct (Qeq_bool (cameraX g) 0 && Qltb 0 (viewportWidth g));
    cbn [cameraX cameraY worldWidth worldHeight viewportWidth viewportHeight
         ctx ctxs fold_left with_canvas];
    rewrite Htop;
    destruct (Qeq_bool (cameraY g) 0 && Qltb 0 (viewportHeight g));
    cbn [cameraX cameraY worldWidth worldHeight viewportWidth viewportHeight
         ctx ctxs fold_left with_canvas];
    rewrite Hright;
    cbn [cameraX cameraY worldWidth worldHeight viewportWidth viewportHeight
         ctx ctxs fold_left with_canvas];
    rewrite Hbottom; reflexivity.
Qed.

(** The theorem with the camera at (0, 1448): the left boundary alone. *)
Lemma boundaries_when_clamped_witness :
  drawWorldBoundaries nearLeftEdge
  = ctxs (strokeStyle "#ff0000" :: lineWidth 2
          :: boundaryLine (- cameraX nearLeftEdge) 0 (- cameraX nearLeftEdge) 600)
      nearLeftEdge.
Proof.
  assert (Hc : clamped nearLeftEdge) by (unfold clamped; vm_compute; intuition discriminate).
  assert (Hw : viewportWidth nearLeftEdge <= worldWidth nearLeftEdge)
    by (vm_compute; discriminate).
  assert (Hh : viewportHeight nearLeftEdge <= worldHeight nearLeftEdge)
    by (vm_compute; discriminate).
  exact (boundaries_when_clamped nearLeftEdge Hc Hw Hh).
Defined.

(** ** Loading avatars: the normal and the exceptional end *)

Lemma set_app_fresh {V : Type} (k : string) (v v' : V) (pre suf : JsMap.t V) :
  ~ In k (JsMap.keys pre) ->
  JsMap.set k v (pre ++ (k, v') :: suf)%list = (pre ++ (k, v) :: suf)%list.
Proof.
  induction pre as [|[k0 v0] pre IH]; intros Hn; simpl in *.
  - now rewrite String.eqb_refl.
  - destruct (String.eqb_spec k k0) as [->|Hne]; [tauto|].
    rewrite IH by tauto. reflexivity.
Qed.

Lemma set_fresh {V : Type} (k : string) (v : V) (m : JsMap.t V) :
  ~ In k (JsMap.keys m) -> JsMap.set k v m = (m ++ [(k, v)])%list.
Proof.
  induction m as [|[k0 v0] m IH]; intros Hn; simpl in *.
  - reflexivity.
  - destruct (String.eqb_spec k k0) as [->|Hne]; [tauto|].
    rewrite IH by tauto. reflexivity.
Qed.

Lemma with_avatars_same g : with_avatars (avatars g) g = g.
Proof. now destruct g. Qed.

Lemma loadAvatarImages_from_fresh (suf : JsMap.t Avatar) :
  forall pre g fuel,
    avatars g = (pre ++ suf)%list ->
    NoDup (JsMap.keys (pre ++ suf)%list) ->
    forallb isFresh suf = true ->
    (List.length suf < fuel)%nat ->
    loadAvatarImages_from fuel (List.length pre) g
    = Some (Normal, with_avatars (pre ++ map loadEntry suf)%list g).
Proof.
  induction suf as [|[k a] suf IH]; intros pre g fuel Hav Hnd Hfresh Hfuel;
    (destruct fuel as [|fuel]; [simpl in Hfuel; lia|]); simpl.
  - rewrite app_nil_r in Hav |- *.
    assert (nth_error (avatars g) (List.length pre) = None) as ->
      by (rewrite Hav; now apply nth_error_None).
    rewrite <- Hav. now rewrite with_avatars_same.
  - rewrite Hav, nth_error_app2, Nat.sub_diag by lia. simpl.
    simpl in Hfresh. apply andb_true_iff in Hfresh. destruct Hfresh as [Hk Hfresh].
    unfold isFresh in Hk. simpl in Hk. destruct a as [d|l]; [|discriminate].
    apply String.eqb_eq in Hk. simpl. rewrite Hav, Hk.
    assert (Hnotin : ~ In k (JsMap.keys pre)).
    { unfold JsMap.keys in *. rewrite map_app in Hnd. simpl in Hnd.
      apply NoDup_remove_2 in Hnd. intros Hin. apply Hnd.
      apply in_or_app. now left. }
    rewrite set_app_fresh by assumption.
    specialize (IH (pre ++ [(k, Loaded (mkLoadedAvatar k (mapDirectional Image.create (frames d))))])%list).
    rewrite length_app, Nat.add_1_r in IH. rewrite IH.
    + rewrite <- app_assoc. simpl. unfold loadEntry, loadedOf. simpl. now rewrite Hk.
    + simpl. now rewrite <- app_assoc.
    + unfold JsMap.keys in *. rewrite <- app_assoc. simpl.
      rewrite map_app in *. exact Hnd.
    + assumption.
    + simpl in Hfuel. lia.
Qed.

(** X3: when every entry of [this.avatars] is an avatar of the server stored
    under its own name, [loadAvatarImages] ends normally and replaces each, in
    place, by its loaded form: one image per frame, none complete yet.
    Nothing else of the client is written. *)
Theorem loadAvatarImages_loads_all (g : GameClient) :
  NoDup (JsMap.keys (avatars g)) ->
  forallb isFresh (avatars g) = true ->
  loadAvatarImages g = (Normal, with_avatars (map loadEntry (avatars g)) g).
Proof.
  intros Hnd Hfresh. unfold loadAvatarImages.
  rewrite (loadAvatarImages_from_fresh (avatars g) [] g); try assumption; try reflexivity.
  lia.
Qed.

Lemma nth_error_set_Loaded name l (m : JsMap.t Avatar) :
  forall j k a,
    nth_error m j = Some (k, Loaded a) ->
    exists k' a', nth_error (JsMap.set name (Loaded l) m) j = Some (k', Loaded a').
Proof.
  induction m as [|[k0 v0] m IH]; intros j k a H; simpl.
  - destruct j; discriminate.
  - destruct (String.eqb name k0).
    + destruct j as [|j]; simpl in *; eauto.
    + destruct j as [|j]; simpl in *; eauto.
Qed.

Lemma loadAvatarImages_from_stale fuel :
  forall i g j k a,
    (i <= j)%nat -> nth_error (avatars g) j = Some (k, Loaded a) ->
    (j - i < fuel)%nat ->
    exists g', loadAvatarImages_from fuel i g = Some (Threw "TypeError", g').
Proof.
  induction fuel as [|fuel IH]; intros i g j k a Hij Hj Hfuel; [lia|]. simpl.
  destruct (nth_error (avatars g) i) as [[k' a']|] eqn:Hi.
  - destruct a' as [d|l]; simpl; [|now eexists].
    assert (i <> j) by (intros ->; congruence).
    destruct (nth_error_set_Loaded (data_name d)
                (mkLoadedAvatar (data_name d) (mapDirectional Image.create (frames d)))
                _ _ _ _ Hj) as (k2 & a2 & Hj').
    apply (IH (S i) _ j k2 a2); [lia | exact Hj' | lia].
  - apply nth_error_None in Hi.
    assert (j < List.length (avatars g))%nat by (apply nth_error_Some; congruence).
    lia.
Qed.

Lemma get_nth_error {V : Type} (k : string) (v : V) (m : JsMap.t V) :
  JsMap.get k m = Some v -> exists j, nth_error m j = Some (k, v).
Proof.
  induction m as [|[k0 v0] m IH]; simpl; [discriminate|].
  destruct (String.eqb_spec k k0) as [->|Hne]; intros H.
  - inversion H; subst. now exists 0%nat.
  - destruct (IH H) as [j Hj]. now exists (S j).
Qed.

Lemma stale_avatar_throws (g : GameClient) (name : string) (a : LoadedAvatar) :
  JsMap.get name (avatars g) = Some (Loaded a) ->
  fst (loadAvatarImages g) = Threw "TypeError".
Proof.
  intros Hget.
  destruct (get_nth_error _ _ _ Hget) as [j Hj].
  assert (j < List.length (avatars g))%nat by (apply nth_error_Some; congruence).
  destruct (loadAvatarImages_from_stale (S (List.length (avatars g))) 0 g j name a)
    as [g' Hg']; [lia | exact Hj | lia |].
  unfold loadAvatarImages. now rewrite Hg'.
Qed.

(** X4: when [this.avatars] holds an avatar that [loadAvatarImage] has stored
    before, [loadAvatarImages] ends with a [TypeError] (reading
    [avatarData.frames[direction]] of an object without [frames]); whatever
    it wrote before, it wrote to [this.avatars] only. *)
Theorem loadAvatarImages_stale_throws (g : GameClient) (name : string) (a : LoadedAvatar) :
  JsMap.get name (avatars g) = Some (Loaded a) ->
  fst (loadAvatarImages g) = Threw "TypeError" /\
  snd (loadAvatarImages g)
  = with_avatars (avatars (snd (loadAvatarImages g))) g.
Proof.
  intros Hget. split.
  - exact (stale_avatar_throws g name a Hget).
  - apply loadAvatarImages_frame.
Qed.

Lemma loadAvatarImages_loads_all_witness :
  loadAvatarImages twoRawAvatars
  = (Normal, with_avatars (map loadEntry (avatars twoRawAvatars)) twoRawAvatars).
Proof.
  apply loadAvatarImages_loads_all.
  - repeat constructor; simpl; intuition discriminate.
  - reflexivity.
Defined.

Lemma loadAvatarImages_stale_throws_witness :
  fst (loadAvatarImages (this welcomed)) = Threw "TypeError".
Proof.
  refine (proj1 (loadAvatarImages_stale_throws (this welcomed) "default"
                   (mkLoadedAvatar "default" (mapDirectional Image.create (frames defaultAvatar)))
                   _)).
  reflexivity.
Defined.

(** ** How a welcome ends *)

Lemma loadAvatarImages_from_error fuel :
  forall i g r,
    loadAvatarImages_from fuel i g = Some r ->
    fst r = Normal \/ fst r = Threw "TypeError".
Proof.
  induction fuel as [|fuel IH]; intros i g r H; simpl in H; [discriminate|].
  destruct (nth_error (avatars g) i) as [[k a]|].
  - destruct a as [d|l]; simpl in H.
    + now apply IH in H.
    + inversion H; subst. now right.
  - inversion H; subst. now left.
Qed.

Lemma loadAvatarImages_error g :
  fst (loadAvatarImages g) = Normal \/ fst (loadAvatarImages g) = Threw "TypeError".
Proof.
  destruct (loadAvatarImages_total g) as (r & Hr & ->).
  now apply (loadAvatarImages_from_error _ _ _ _ Hr).
Qed.

Lemma joined_without_self playerId msg_players msg_avatars g :
  JsMap.get playerId (JsMap.setAll msg_players (players g)) = None ->
  joined playerId msg_players msg_avatars g
  = with_myPlayer None
      (with_avatars
         (JsMap.setAll (map (fun e => (fst e, Raw (snd e))) msg_avatars) (avatars g))
         (with_players (JsMap.setAll msg_players (players g))
            (with_myPlayerId (Some playerId) g))).
Proof.
  intros H. unfold joined, centerViewportOnPlayer. cbn. now rewrite H.
Qed.

(** X5: a welcome whose [playerId] is not in the registry once the players of
    the message are stored ends with a [TypeError] (reading
    [this.myPlayer.username]); the registry and the local identity are
    written all the same, [myPlayer] is [undefined], the camera stays where
    it was and nothing is rendered. *)
Theorem welcome_without_self_throws
    (g : GameClient) (playerId : string) (msg_players : list (string * Player.t))
    (msg_avatars : list (string * AvatarData)) :
  JsMap.get playerId (JsMap.setAll msg_players (players g)) = None ->
  let r := handleJoinGameSuccess playerId msg_players msg_avatars g in
  fst r = Threw "TypeError" /\
  players (snd r) = JsMap.setAll msg_players (players g) /\
  myPlayerId (snd r) = Some playerId /\
  myPlayer (snd r) = None /\
  cameraX (snd r) = cameraX g /\ cameraY (snd r) = cameraY g /\
  canvas (snd r) = canvas g.
Proof.
  intros Hself r. unfold r, handleJoinGameSuccess.
  fold (joined playerId msg_players msg_avatars g).
  pose proof (loadAvatarImages_frame (joined playerId msg_players msg_avatars g)) as Hframe.
  pose proof (loadAvatarImages_error (joined playerId msg_players msg_avatars g)) as Herr.
  rewrite (joined_without_self _ _ _ _ Hself) in *.
  destruct (loadAvatarImages _) as [c g1]. simpl in Hframe, Herr.
  destruct c as [|e].
  - rewrite Hframe. simpl. repeat split.
  - destruct Herr as [Herr|Herr]; [discriminate|]. simpl.
    rewrite Hframe. simpl. repeat split. exact Herr.
Qed.

(** X6: a welcome that arrives while [this.avatars] holds a loaded avatar
    whose name is not among the avatars of the message (a second welcome,
    after a reconnection) ends with a [TypeError] from [loadAvatarImages]:
    the registry and the local identity are written, and nothing is
    rendered. *)
Theorem welcome_with_stale_avatar_throws
    (g : GameClient) (playerId : string) (msg_players : list (string * Player.t))
    (msg_avatars : list (string * AvatarData)) (name : string) (a : LoadedAvatar) :
  JsMap.get name (avatars g) = Some (Loaded a) ->
  ~ In name (JsMap.keys msg_avatars) ->
  let r := handleJoinGameSuccess playerId msg_players msg_avatars g in
  fst r = Threw "TypeError" /\
  players (snd r) = JsMap.setAll msg_players (players g) /\
  myPlayerId (snd r) = Some playerId /\
  canvas (snd r) = canvas g.
Proof.
  intros Hstale Hnotin r. unfold r, handleJoinGameSuccess.
  fold (joined playerId msg_players msg_avatars g).
  assert (Hget : JsMap.get name (avatars (joined playerId msg_players msg_avatars g))
                 = Some (Loaded a)).
  { unfold joined, centerViewportOnPlayer. cbn.
    assert (JsMap.get name
              (JsMap.setAll (map (fun e : string * AvatarData => (fst e, Raw (snd e)))
                               msg_avatars) (avatars g)) = Some (Loaded a)) as Hset.
    { rewrite JsMapFacts.get_setAll_other; [exact Hstale|].
      unfold JsMap.keys in *. rewrite map_map. exact Hnotin. }
    destruct (JsMap.get playerId _); exact Hset. }
  pose proof (stale_avatar_throws _ _ _ Hget) as Hthrew.
  pose proof (loadAvatarImages_frame (joined playerId msg_players msg_avatars g)) as Hframe.
  destruct (loadAvatarImages _) as [c g1]. simpl in Hthrew, Hframe. subst c.
  simpl. rewrite Hframe. unfold joined, centerViewportOnPlayer. cbn.
  destruct (JsMap.get playerId _); repeat split.
Qed.

Lemma welcome_without_self_throws_witness :
  fst (handleJoinGameSuccess "ghost" [("me", somePlayer "me" 2040 2040)]
         [("default", defaultAvatar)] (this started))
  = Threw "TypeError".
Proof.
  refine (proj1 (welcome_without_self_throws (this started) "ghost"
                   [("me", somePlayer "me" 2040 2040)] [("default", defaultAvatar)] _)).
  reflexivity.
Defined.

Lemma welcome_with_stale_avatar_throws_witness :
  fst (handleJoinGameSuccess "me" [("me", somePlayer "me" 2040 2040)]
         [("knight", mkAvatarData "knight" (mkDirectional ["k0"] [] ["k1"]))]
         (this welcomed))
  = Threw "TypeError".
Proof.
  refine (proj1 (welcome_with_stale_avatar_throws (this welcomed) "me"
                   [("me", somePlayer "me" 2040 2040)]
                   [("knight", mkAvatarData "knight" (mkDirectional ["k0"] [] ["k1"]))]
                   "default"
                   (mkLoadedAvatar "default" (mapDirectional Image.create (frames defaultAvatar)))
                   _ _)).
  - reflexivity.
  - simpl. intuition discriminate.
Defined.

Lemma setAll_fresh {V : Type} (entries : list (string * V)) :
  forall m : JsMap.t V,
    NoDup (JsMap.keys entries) ->
    (forall k, In k (JsMap.keys entries) -> ~ In k (JsMap.keys m)) ->
    JsMap.setAll entries m = (m ++ entries)%list.
Proof.
  unfold JsMap.setAll.
  induction entries as [|[k v] entries IH]; intros m Hnd Hdisj; simpl.
  - now rewrite app_nil_r.
  - inversion Hnd as [|? ? Hk Hnd']; subst.
    rewrite set_fresh by (apply Hdisj; now left).
    rewrite IH; [now rewrite <- app_assoc | assumption |].
    intros k' Hk' Hin. unfold JsMap.keys in Hin. rewrite map_app in Hin.
    apply in_app_or in Hin. destruct Hin as [Hin|[<-|[]]].
    + apply (Hdisj k'); [now right | exact Hin].
    + exact (Hk Hk').
Qed.

Lemma isFresh_raw (l : list (string * AvatarData)) :
  forallb isFresh (map (fun e => (fst e, Raw (snd e))) l) = forallb keyedByName l.
Proof.
  induction l as [|e l IH]; simpl; [reflexivity|]. now rewrite IH.
Qed.

(** X7: the first welcome, received with [this.avatars] empty, whose avatars
    are keyed by their names and whose [playerId] is among the players it
    leaves in the registry, ends normally: every avatar of the message is
    stored loaded, in the order of the message, and [myPlayer] is the
    registry's entry. *)
Theorem first_welcome_ends_normally
    (g : GameClient) (playerId : string) (msg_players : list (string * Player.t))
    (msg_avatars : list (string * AvatarData)) (p : Player.t) :
  avatars g = [] ->
  NoDup (JsMap.keys msg_avatars) ->
  forallb keyedByName msg_avatars = true ->
  JsMap.get playerId (JsMap.setAll msg_players (players g)) = Some p ->
  let r := handleJoinGameSuccess playerId msg_players msg_avatars g in
  fst r = Normal /\
  avatars (snd r) = map (fun e => (fst e, loadedOf (snd e))) msg_avatars /\
  myPlayer (snd r) = Some p.
Proof.
  intros Hempty Hnd Hkeyed Hself r. unfold r, handleJoinGameSuccess.
  fold (joined playerId msg_players msg_avatars g).
  set (raw := map (fun e : string * AvatarData => (fst e, Raw (snd e))) msg_avatars).
  assert (Hkeys : JsMap.keys raw = JsMap.keys msg_avatars).
  { unfold raw, JsMap.keys. rewrite map_map. reflexivity. }
  assert (Hav : avatars (joined playerId msg_players msg_avatars g) = raw).
  { unfold joined, centerViewportOnPlayer. cbn. rewrite Hself. cbn.
    rewrite Hempty. fold raw. rewrite setAll_fresh; [reflexivity | now rewrite Hkeys |].
    intros k _ []. }
  assert (Hmine : myPlayer (joined playerId msg_players msg_avatars g) = Some p).
  { unfold joined, centerViewportOnPlayer. cbn. rewrite Hself. reflexivity. }
  unfold loadAvatarImages.
  rewrite (loadAvatarImages_from_fresh (avatars (joined playerId msg_players msg_avatars g))
             [] (joined playerId msg_players msg_avatars g)).
  - cbn [myPlayer with_avatars app]. rewrite Hmine. cbn [fst snd].
    rewrite render_avatars, render_myPlayer. cbn [avatars myPlayer with_avatars].
    rewrite Hav, Hmine. unfold raw. rewrite map_map. repeat split.
  - reflexivity.
  - simpl. now rewrite Hav, Hkeys.
  - rewrite Hav. unfold raw. now rewrite isFresh_raw.
  - simpl. lia.
Qed.

Lemma first_welcome_ends_normally_witness :
  fst (handleJoinGameSuccess "me" [("me", somePlayer "me" 2040 2040)]
         [("default", defaultAvatar)] (this started)) = Normal.
Proof.
  refine (proj1 (first_welcome_ends_normally (this started) "me"
                   [("me", somePlayer "me" 2040 2040)] [("default", defaultAvatar)]
                   (somePlayer "me" 2040 2040) _ _ _ _)).
  - reflexivity.
  - repeat constructor; simpl; intuition.
  - reflexivity.
  - reflexivity.
Defined.

(** ** A player joins *)

(** X8: [handlePlayerJoined] never raises.  It stores the player under its
    id and the avatar, loaded, under its name; every other player and avatar,
    the local identity, [myPlayer], the camera, the emotes and the socket
    stay. *)
Theorem player_joined_upserts (g : GameClient) (player : Player.t) (avatar : AvatarData) :
  let r := handlePlayerJoined player avatar g in
  fst r = Normal /\
  JsMap.get (Player.id player) (players (snd r)) = Some player /\
  (forall id, id <> Player.id player ->
              JsMap.get id (players (snd r)) = JsMap.get id (players g)) /\
  JsMap.get (data_name avatar) (avatars (snd r)) = Some (loadedOf avatar) /\
  (forall name, name <> data_name avatar ->
                JsMap.get name (avatars (snd r)) = JsMap.get name (avatars g)) /\
  myPlayerId (snd r) = myPlayerId g /\ myPlayer (snd r) = myPlayer g /\
  cameraX (snd r) = cameraX g /\ cameraY (snd r) = cameraY g /\
  playerEmotes (snd r) = playerEmotes g /\ ws (snd r) = ws g.
Proof.
  cbv zeta. unfold handlePlayerJoined. simpl.
  autorewrite with render. simpl.
  split; [reflexivity|]. split; [apply JsMapFacts.get_set_same|].
  split; [intros id Hid; now apply JsMapFacts.get_set_other|].
  split; [apply JsMapFacts.get_set_same|].
  split; [|repeat split].
  intros name Hname. now rewrite !JsMapFacts.get_set_other.
Qed.

Lemma player_joined_upserts_witness :
  let r := handlePlayerJoined (somePlayer "new" 5 5) defaultAvatar (this welcomed) in
  fst r = Normal /\
  JsMap.get "you" (players (snd r)) = Some (somePlayer "you" 10 10).
Proof.
  destruct (player_joined_upserts (this welcomed) (somePlayer "new" 5 5) defaultAvatar)
    as (Hnormal & _ & Hothers & _).
  split; [exact Hnormal|].
  rewrite Hothers; [reflexivity | discriminate].
Defined.

(** ** Players move *)

Lemma handlePlayersMoved_fold msg_players g :
  handlePlayersMoved msg_players g = render (fold_left movedStep msg_players g).
Proof. reflexivity. Qed.

Lemma movedOnly_refl g : movedOnly g g.
Proof. now destruct g. Qed.

Lemma movedOnly_trans g1 g2 g3 : movedOnly g1 g2 -> movedOnly g2 g3 -> movedOnly g1 g3.
Proof.
  unfold movedOnly. intros H12 H23. rewrite H23 at 1. rewrite H12 at 1. reflexivity.
Qed.

Lemma movedOnly_step g e : movedOnly g (movedStep g e).
Proof.
  unfold movedStep, centerViewportOnPlayer. cbn.
  destruct (isMyPlayerId _ _); destruct g; reflexivity.
Qed.

Lemma movedOnly_fold l : forall g, movedOnly g (fold_left movedStep l g).
Proof.
  induction l as [|e l IH]; intros g; simpl.
  - apply movedOnly_refl.
  - eapply movedOnly_trans; [apply movedOnly_step | apply IH].
Qed.

Lemma fold_movedStep_players l :
  forall g, players (fold_left movedStep l g) = JsMap.setAll l (players g).
Proof.
  unfold JsMap.setAll.
  induction l as [|e l IH]; intros g; simpl; [reflexivity|].
  rewrite IH. f_equal. unfold movedStep, centerViewportOnPlayer. cbn.
  destruct (isMyPlayerId _ _); reflexivity.
Qed.

(** Entries for other players leave the local player and the camera alone. *)
Lemma fold_movedStep_others l :
  forall g,
    (forall e, In e l -> isMyPlayerId (fst e) g = false) ->
    myPlayer (fold_left movedStep l g) = myPlayer g /\
    cameraX (fold_left movedStep l g) = cameraX g /\
    cameraY (fold_left movedStep l g) = cameraY g.
Proof.
  induction l as [|e l IH]; intros g Hothers; simpl; [repeat split|].
  assert (Hstep : movedStep g e = with_players (JsMap.set (fst e) (snd e) (players g)) g).
  { unfold movedStep. cbn.
    assert (E : isMyPlayerId (fst e) g = false) by (apply Hothers; now left).
    unfold isMyPlayerId in *. cbn. now rewrite E. }
  rewrite Hstep.
  destruct (IH (with_players (JsMap.set (fst e) (snd e) (players g)) g))
    as (-> & -> & ->); [|repeat split].
  intros e' He'. unfold isMyPlayerId. cbn. apply Hothers. now right.
Qed.

Lemma players_moved_frame msg_players g :
  avatars (handlePlayersMoved msg_players g) = avatars g /\
  playerEmotes (handlePlayersMoved msg_players g) = playerEmotes g.
Proof.
  rewrite handlePlayersMoved_fold. autorewrite with render.
  pose proof (movedOnly_fold msg_players g) as H. unfold movedOnly in H.
  rewrite H. now split.
Qed.

(** X9: [handlePlayersMoved] stores every player of the message and leaves
    every other id as it was.  When the local id is among them, [myPlayer]
    becomes the new object and the camera the clamped offset centred on it;
    when it is not, [myPlayer] and the camera stay.  Avatars, emotes, local
    identity, viewport and socket are not written. *)
Theorem players_moved_upserts (g : GameClient) (msg_players : list (string * Player.t)) :
  NoDup (JsMap.keys msg_players) ->
  let g' := handlePlayersMoved msg_players g in
  (forall id p, In (id, p) msg_players -> JsMap.get id (players g') = Some p) /\
  (forall id, ~ In id (JsMap.keys msg_players) ->
              JsMap.get id (players g') = JsMap.get id (players g)) /\
  (forall mine p,
     myPlayerId g = Some mine -> In (mine, p) msg_players ->
     myPlayer g' = Some p /\
     cameraX g' = clamp (Player.x p - viewportWidth g / 2) (worldWidth g - viewportWidth g) /\
     cameraY g' = clamp (Player.y p - viewportHeight g / 2) (worldHeight g - viewportHeight g)) /\
  ((forall mine, myPlayerId g = Some mine -> ~ In mine (JsMap.keys msg_players)) ->
   myPlayer g' = myPlayer g /\ cameraX g' = cameraX g /\ cameraY g' = cameraY g) /\
  avatars g' = avatars g /\ playerEmotes g' = playerEmotes g /\
  myPlayerId g' = myPlayerId g /\ ws g' = ws g /\
  viewportWidth g' = viewportWidth g /\ viewportHeight g' = viewportHeight g.
Proof.
  intros Hnd g'. unfold g'. rewrite handlePlayersMoved_fold.
  autorewrite with render.
  pose proof (movedOnly_fold msg_players g) as Hframe. unfold movedOnly in Hframe.
  rewrite fold_movedStep_players.
  split; [intros id p Hin; now apply JsMapFacts.get_setAll_in|].
  split; [intros id Hid; now apply JsMapFacts.get_setAll_other|].
  split; [|split].
  - intros mine p Hmine Hin.
    destruct (in_split _ _ Hin) as (l1 & l2 & ->).
    unfold JsMap.keys in Hnd. rewrite map_app in Hnd. simpl in Hnd.
    pose proof (NoDup_remove_2 _ _ _ Hnd) as Hnotin.
    rewrite fold_left_app. simpl.
    assert (Hid : forall l g0, myPlayerId (fold_left movedStep l g0) = myPlayerId g0).
    { intros l g0. pose proof (movedOnly_fold l g0) as H. unfold movedOnly in H.
      now rewrite H. }
    assert (Hview : forall l g0,
               viewportWidth (fold_left movedStep l g0) = viewportWidth g0 /\
               viewportHeight (fold_left movedStep l g0) = viewportHeight g0 /\
               worldWidth (fold_left movedStep l g0) = worldWidth g0 /\
               worldHeight (fold_left movedStep l g0) = worldHeight g0).
    { intros l g0. pose proof (movedOnly_fold l g0) as H. unfold movedOnly in H.
      rewrite H. repeat split. }
    set (g1 := fold_left movedStep l1 g).
    assert (Hmine1 : myPlayerId g1 = Some mine) by (unfold g1; now rewrite Hid).
    destruct (Hview l1 g) as (Hvw & Hvh & Hww & Hwh). fold g1 in Hvw, Hvh, Hww, Hwh.
    assert (Hstep : movedStep g1 (mine, p)
                    = centerViewportOnPlayer
                        (with_myPlayer (Some p)
                           (with_players (JsMap.set mine p (players g1)) g1))).
    { unfold movedStep, isMyPlayerId. cbn. now rewrite Hmine1, String.eqb_refl. }
    rewrite Hstep.
    set (g2 := centerViewportOnPlayer _).
    assert (Hothers : forall e, In e l2 -> isMyPlayerId (fst e) g2 = false).
    { intros e He. unfold isMyPlayerId.
      assert (myPlayerId g2 = Some mine) as -> by (unfold g2; cbn; exact Hmine1).
      apply String.eqb_neq. intros E. apply Hnotin. apply in_or_app. right.
      rewrite <- E. now apply in_map. }
    destruct (fold_movedStep_others l2 g2 Hothers) as (-> & -> & ->).
    unfold g2, centerViewportOnPlayer. cbn. rewrite Hvw, Hvh, Hww, Hwh.
    repeat split.
  - intros Hnone.
    apply fold_movedStep_others. intros e He. unfold isMyPlayerId.
    destruct (myPlayerId g) as [mine|] eqn:Hmine; [|reflexivity].
    apply String.eqb_neq. intros E. apply (Hnone mine eq_refl).
    rewrite <- E. unfold JsMap.keys. now apply in_map.
  - rewrite Hframe. repeat split.
Qed.

Lemma players_moved_upserts_witness :
  let g' := handlePlayersMoved [("me", somePlayer "me" 100 100)] (this welcomed) in
  myPlayer g' = Some (somePlayer "me" 100 100) /\
  cameraX g' == 0 /\ cameraY g' == 0 /\
  JsMap.get "you" (players g') = Some (somePlayer "you" 10 10).
Proof.
  intros g'.
  assert (Hnd : NoDup (JsMap.keys [("me", somePlayer "me" 100 100)])).
  { repeat constructor; simpl; intuition. }
  destruct (players_moved_upserts (this welcomed) _ Hnd) as (_ & Hothers & Hmine & _).
  destruct (Hmine "me" (somePlayer "me" 100 100)) as (Hp & Hx & Hy);
    [reflexivity | now left |].
  fold g' in Hp, Hx, Hy, Hothers.
  split; [exact Hp|]. rewrite Hx, Hy.
  split; [reflexivity|]. split; [reflexivity|].
  rewrite Hothers; [reflexivity | simpl; intuition discriminate].
Defined.

(** ** A player leaves, timers fire *)

Lemma delete_absent {V : Type} (k : string) (m : JsMap.t V) :
  JsMap.get k m = None -> JsMap.delete k m = m.
Proof.
  unfold JsMap.delete.
  induction m as [|[k0 v0] m IH]; simpl; [reflexivity|].
  destruct (String.eqb k k0); [discriminate|]. intros H. simpl. now rewrite IH.
Qed.

Lemma left_emoteOf (w : World) (playerId other : string) :
  emoteOf other (onmessage (player_left playerId) w)
  = if String.eqb other playerId then None else emoteOf other w.
Proof.
  unfold onmessage, emoteOf. simpl. unfold handlePlayerLeft.
  autorewrite with render. simpl.
  destruct (String.eqb_spec other playerId) as [->|Hne].
  - apply JsMapFacts.get_delete_same.
  - now apply JsMapFacts.get_delete_other.
Qed.

Lemma left_players (w : World) (playerId : string) :
  players (this (onmessage (player_left playerId) w))
  = JsMap.delete playerId (players (this w)).
Proof.
  unfold onmessage. simpl. unfold handlePlayerLeft. now autorewrite with render.
Qed.

(** X10: [handlePlayerLeft] removes the player from the registry and from the
    emotes, and nothing else: every other player and emote, the avatars, the
    local identity, [myPlayer] and the camera stay; no timer is cancelled.
    For an id that is in neither map the maps are left as they are. *)
Theorem player_left_removes (w : World) (playerId : string) :
  let w' := onmessage (player_left playerId) w in
  JsMap.get playerId (players (this w')) = None /\
  emoteOf playerId w' = None /\
  (forall other, other <> playerId ->
     JsMap.get other (players (this w')) = JsMap.get other (players (this w)) /\
     emoteOf other w' = emoteOf other w) /\
  (JsMap.get playerId (players (this w)) = None -> players (this w') = players (this w)) /\
  (emoteOf playerId w = None -> playerEmotes (this w') = playerEmotes (this w)) /\
  avatars (this w') = avatars (this w) /\
  myPlayerId (this w') = myPlayerId (this w) /\ myPlayer (this w') = myPlayer (this w) /\
  cameraX (this w') = cameraX (this w) /\ cameraY (this w') = cameraY (this w) /\
  timers w' = timers w /\ clock w' = clock w.
Proof.
  cbv zeta. unfold onmessage, emoteOf. simpl. unfold handlePlayerLeft.
  autorewrite with render. simpl.
  split; [apply JsMapFacts.get_delete_same|].
  split; [apply JsMapFacts.get_delete_same|].
  split; [intros other Hother; split; now apply JsMapFacts.get_delete_other|].
  split; [apply delete_absent|]. split; [apply delete_absent|].
  repeat split.
Qed.

Lemma player_left_removes_witness :
  let w' := onmessage (player_left "you") welcomed in
  JsMap.get "you" (players (this w')) = None /\
  JsMap.get "me" (players (this w')) = Some (somePlayer "me" 2040 2040).
Proof.
  destruct (player_left_removes welcomed "you") as (Hgone & _ & Hothers & _).
  split; [exact Hgone|].
  destruct (Hothers "me") as [Hme _]; [discriminate|].
  rewrite Hme. reflexivity.
Defined.

Lemma expiredOnly_refl g : expiredOnly g g.
Proof. now destruct g. Qed.

Lemma expiredOnly_trans g1 g2 g3 :
  expiredOnly g1 g2 -> expiredOnly g2 g3 -> expiredOnly g1 g3.
Proof.
  unfold expiredOnly. intros H12 H23. rewrite H23 at 1. rewrite H12 at 1. reflexivity.
Qed.

Lemma expiredOnly_fire w tm : expiredOnly (this w) (this (fire w tm)).
Proof.
  unfold fire, expiredOnly. destruct (callback tm) as [pid]. simpl.
  rewrite (render_frame _) at 1. rewrite render_playerEmotes. reflexivity.
Qed.

Lemma expiredOnly_fold l : forall w, expiredOnly (this w) (this (fold_left fire l w)).
Proof.
  induction l as [|tm l IH]; intros w; simpl.
  - apply expiredOnly_refl.
  - eapply expiredOnly_trans; [apply expiredOnly_fire | apply IH].
Qed.

Lemma fold_fire_kept playerId l :
  forall w e, emoteOf playerId (fold_left fire l w) = Some e -> emoteOf playerId w = Some e.
Proof.
  induction l as [|tm l IH]; intros w e H; simpl in H; [exact H|].
  apply IH in H. rewrite fire_emoteOf in H.
  now destruct (expires playerId tm).
Qed.

Lemma advance_expiredOnly now w : expiredOnly (this w) (this (advance now w)).
Proof.
  unfold advance. simpl. apply (expiredOnly_fold _ (mkWorld (this w) (clock w) _)).
Qed.

Lemma advance_kept now w playerId e :
  emoteOf playerId (advance now w) = Some e -> emoteOf playerId w = Some e.
Proof.
  intros H. unfold advance, emoteOf in H. simpl in H.
  apply (fold_fire_kept playerId) in H. exact H.
Qed.

(** X11: letting time pass only removes emotes and renders.  The registry,
    the avatars, the local identity, [myPlayer], the camera, the viewport and
    the socket are as before; an emote present afterwards was present before,
    unchanged; no timer due by then is left and none is added. *)
Theorem advance_only_expires (now : Z) (w : World) :
  let w' := advance now w in
  expiredOnly (this w) (this w') /\
  (forall playerId e, emoteOf playerId w' = Some e -> emoteOf playerId w = Some e) /\
  (forall tm, In tm (timers w') <-> In tm (timers w) /\ (now < due tm)%Z) /\
  clock w' = now.
Proof.
  cbv zeta. split; [|split; [|split]].
  - apply advance_expiredOnly.
  - intros playerId e. apply advance_kept.
  - intros tm. rewrite advance_timers, filter_In, negb_true_iff, Z.leb_gt. tauto.
  - reflexivity.
Qed.

Lemma advance_only_expires_witness :
  emoteOf "you" othersJumping = Some (mkEmote "jump" 200 1500 3) /\
  ~ In (mkTimer 1700 (expireEmote "you")) (timers (advance 1700 othersJumping)).
Proof.
  destruct (advance_only_expires 1000 othersJumping) as (_ & Hkept & _).
  destruct (advance_only_expires 1700 othersJumping) as (_ & _ & Htimers & _).
  split.
  - apply Hkept. reflexivity.
  - intros Hin. apply Htimers in Hin. destruct Hin as [_ Hlate]. simpl in Hlate. lia.
Defined.

(** X12: the removal of an emote that fires after its player has left finds
    nothing to remove: whenever it fires, the player is still absent from the
    registry and has no emote, and a timer that fires for a player without an
    emote leaves the emotes as they are. *)
Theorem expiry_after_leave (w : World) (playerId : string) :
  let w' := onmessage (player_left playerId) w in
  (forall now,
     emoteOf playerId (advance now w') = None /\
     JsMap.get playerId (players (this (advance now w'))) = None) /\
  (forall w0 tm,
     callback tm = expireEmote playerId -> emoteOf playerId w0 = None ->
     playerEmotes (this (fire w0 tm)) = playerEmotes (this w0)).
Proof.
  cbv zeta. split.
  - intros now.
    assert (Hnone : emoteOf playerId (onmessage (player_left playerId) w) = None)
      by (rewrite left_emoteOf; now rewrite String.eqb_refl).
    split.
    + unfold advance, emoteOf. simpl. now apply (fold_fire_absent playerId).
    + pose proof (advance_expiredOnly now (onmessage (player_left playerId) w)) as Hframe.
      unfold expiredOnly in Hframe. rewrite Hframe.
      cbn [players with_canvas with_playerEmotes]. rewrite left_players.
      apply JsMapFacts.get_delete_same.
  - intros w0 tm Hcb Hnone. unfold fire. rewrite Hcb. simpl.
    rewrite render_playerEmotes. simpl. now apply delete_absent.
Qed.

Lemma expiry_after_leave_witness :
  timers leftWhileJumping = [mkTimer 1700 (expireEmote "you")] /\
  emoteOf "you" (advance 1700 leftWhileJumping) = None /\
  playerEmotes (this (fire leftWhileJumping (mkTimer 1700 (expireEmote "you"))))
  = playerEmotes (this leftWhileJumping).
Proof.
  split; [reflexivity|].
  destruct (expiry_after_leave (advance 900 othersJumping) "you") as [Hlate Hnoop].
  split.
  - exact (proj1 (Hlate 1700%Z)).
  - apply Hnoop; reflexivity.
Defined.

(** ** What a message never does *)

Lemma onmessage_join_state playerId msg_players msg_avatars error w :
  let g' := this (onmessage (join_game true playerId msg_players msg_avatars error) w) in
  g' = snd (handleJoinGameSuccess playerId msg_players msg_avatars (this w)) /\
  g' = with_canvas (canvas g')
         (with_avatars (avatars g') (joined playerId msg_players msg_avatars (this w))).
Proof.
  cbv zeta.
  assert (E : this (onmessage (join_game true playerId msg_players msg_avatars error) w)
              = snd (handleJoinGameSuccess playerId msg_players msg_avatars (this w))).
  { unfold onmessage, handleServerMessage.
    destruct (handleJoinGameSuccess _ _ _ _); reflexivity. }
  split; [exact E|]. rewrite E. apply handleJoinGameSuccess_state.
Qed.

Lemma joined_players playerId msg_players msg_avatars g :
  players (joined playerId msg_players msg_avatars g)
  = JsMap.setAll msg_players (players g).
Proof.
  unfold joined, centerViewportOnPlayer. cbn.
  destruct (JsMap.get playerId _); reflexivity.
Qed.

Lemma handleJoinGameSuccess_keeps_avatars playerId msg_players msg_avatars g name :
  JsMap.has name (avatars g) = true ->
  JsMap.has name (avatars (snd (handleJoinGameSuccess playerId msg_players msg_avatars g)))
  = true.
Proof.
  intros Hname. unfold handleJoinGameSuccess.
  fold (joined playerId msg_players msg_avatars g).
  assert (Hj : JsMap.has name (avatars (joined playerId msg_players msg_avatars g)) = true).
  { unfold joined, centerViewportOnPlayer. cbn.
    destruct (JsMap.get playerId _); cbn; now apply JsMapFacts.has_setAll. }
  pose proof (loadAvatarImages_keeps name _ Hj) as Hload.
  destruct (loadAvatarImages _) as [[|e] g1]; simpl in Hload |- *; [|exact Hload].
  destruct (myPlayer g1); simpl; [now rewrite render_avatars | exact Hload].
Qed.

Lemma has_delete_other {V : Type} (k other : string) (m : JsMap.t V) :
  other <> k -> JsMap.has other (JsMap.delete k m) = JsMap.has other m.
Proof. intros H. unfold JsMap.has. now rewrite JsMapFacts.get_delete_other. Qed.

(** X13: a player is taken out of the registry by a [player_left] for its id
    and by no other message, and no message takes an avatar name out of
    [this.avatars]. *)
Theorem only_leave_removes (message : ServerMessage) (w : World) :
  (forall id,
     JsMap.has id (players (this w)) = true ->
     message <> player_left id ->
     JsMap.has id (players (this (onmessage message w))) = true) /\
  (forall name,
     JsMap.has name (avatars (this w)) = true ->
     JsMap.has name (avatars (this (onmessage message w))) = true).
Proof.
  split.
  - intros id Hid Hnot.
    destruct message as [[|] pid ps avs err | p a | ps | pid | pid kind | action];
      try exact Hid.
    + destruct (onmessage_join_state pid ps avs err w) as [_ Hstate].
      cbv zeta in Hstate. rewrite Hstate. cbn [players with_canvas with_avatars].
      rewrite joined_players. now apply JsMapFacts.has_setAll.
    + unfold onmessage. simpl. autorewrite with render. simpl.
      now apply JsMapFacts.has_set.
    + unfold onmessage. simpl. rewrite handlePlayersMoved_fold.
      autorewrite with render. rewrite fold_movedStep_players.
      now apply JsMapFacts.has_setAll.
    + unfold onmessage. simpl. unfold handlePlayerLeft.
      autorewrite with render. simpl. rewrite has_delete_other; [exact Hid|].
      intros ->. now apply Hnot.
    + unfold onmessage. simpl. unfold handlePlayerEmote, startEmoteAnimation.
      destruct (String.eqb kind "jump"); simpl; autorewrite with render; exact Hid.
  - intros name Hname.
    destruct message as [[|] pid ps avs err | p a | ps | pid | pid kind | action];
      try exact Hname.
    + destruct (onmessage_join_state pid ps avs err w) as [-> _].
      now apply handleJoinGameSuccess_keeps_avatars.
    + unfold onmessage. simpl. autorewrite with render. simpl.
      now apply JsMapFacts.has_set, JsMapFacts.has_set.
    + unfold onmessage. simpl. rewrite handlePlayersMoved_fold.
      autorewrite with render.
      pose proof (movedOnly_fold ps (this w)) as H. unfold movedOnly in H.
      now rewrite H.
    + unfold onmessage. simpl. unfold handlePlayerLeft.
      autorewrite with render. exact Hname.
    + unfold onmessage. simpl. unfold handlePlayerEmote, startEmoteAnimation.
      destruct (String.eqb kind "jump"); simpl; autorewrite with render; exact Hname.
Qed.

Lemma only_leave_removes_witness :
  JsMap.has "you" (players (this (onmessage (player_left "me") welcomed))) = true /\
  JsMap.has "default" (avatars (this (onmessage (player_left "me") welcomed))) = true.
Proof.
  destruct (only_leave_removes (player_left "me") welcomed) as [Hplayers Havatars].
  split.
  - apply Hplayers; [reflexivity | discriminate].
  - apply Havatars. reflexivity.
Defined.

(** X14: handling a message never writes the socket, the size of the world,
    the viewport or the world image, and never moves the clock; the only
    message that sets a timer is an emote of kind ["jump"], which sets one,
    due 1500 after the clock, and no message cancels a timer. *)
Theorem onmessage_frame (message : ServerMessage) (w : World) :
  let w' := onmessage message w in
  ws (this w') = ws (this w) /\
  worldWidth (this w') = worldWidth (this w) /\
  worldHeight (this w') = worldHeight (this w) /\
  viewportWidth (this w') = viewportWidth (this w) /\
  viewportHeight (this w') = viewportHeight (this w) /\
  worldImage (this w') = worldImage (this w) /\
  clock w' = clock w /\
  timers w' = (timers w ++ timerSetBy message w)%list.
Proof.
  cbv zeta.
  destruct message as [[|] pid ps avs err | p a | ps | pid | pid kind | action];
    try (simpl; rewrite app_nil_r; repeat split; fail).
  - destruct (onmessage_join_state pid ps avs err w) as [_ Hstate].
    cbv zeta in Hstate. rewrite Hstate.
    assert (Hrest : clock (onmessage (join_game true pid ps avs err) w) = clock w /\
                    timers (onmessage (join_game true pid ps avs err) w) = timers w).
    { unfold onmessage, handleServerMessage.
      destruct (handleJoinGameSuccess _ _ _ _); split; reflexivity. }
    destruct Hrest as [-> ->]. simpl. rewrite app_nil_r.
    unfold joined, centerViewportOnPlayer. cbn.
    destruct (JsMap.get pid _); repeat split.
  - unfold onmessage. simpl. autorewrite with render. simpl.
    rewrite app_nil_r. repeat split.
  - unfold onmessage. simpl. rewrite handlePlayersMoved_fold.
    autorewrite with render.
    pose proof (movedOnly_fold ps (this w)) as H. unfold movedOnly in H.
    rewrite H. simpl. rewrite app_nil_r. repeat split.
  - unfold onmessage. simpl. unfold handlePlayerLeft.
    autorewrite with render. simpl. rewrite app_nil_r. repeat split.
  - unfold onmessage. simpl. unfold handlePlayerEmote, startEmoteAnimation.
    destruct (String.eqb kind "jump"); simpl; autorewrite with render; simpl;
      rewrite ?app_nil_r; repeat split.
Qed.

(** ** Camera, culling and clicks together *)

(** X15: a tracked player that stands within 50 of the world is in view
    after [centerViewportOnPlayer], whatever the size of the viewport: the
    culling of [drawPlayer] never hides the local player. *)
Theorem tracked_player_in_view (g : GameClient) (p : Player.t) :
  myPlayer g = Some p ->
  0 <= viewportWidth g -> 0 <= viewportHeight g ->
  -(50) <= Player.x p <= worldWidth g + 50 ->
  -(50) <= Player.y p <= worldHeight g + 50 ->
  inView p (centerViewportOnPlayer g) = true.
Proof.
  intros Hp Hvw Hvh Hx Hy.
  rewrite (centerViewportOnPlayer_tracked g p Hp).
  unfold inView, worldToScreen, updateViewport. cbn.
  pose proof (Qhalf (viewportWidth g)). pose proof (Qhalf (viewportHeight g)).
  set (hw := viewportWidth g / 2) in *. set (hh := viewportHeight g / 2) in *.
  apply negb_true_iff. repeat (apply orb_false_iff; split); apply Qltb_ge;
    minmax_cases; lra.
Qed.

Lemma tracked_player_in_view_witness :
  inView (somePlayer "me" 100 2040) nearLeftEdge = true.
Proof.
  apply (tracked_player_in_view (clientAt 800 600 (somePlayer "me" 100 2040))
           (somePlayer "me" 100 2040)).
  - reflexivity.
  - vm_compute. discriminate.
  - vm_compute. discriminate.
  - split; vm_compute; discriminate.
  - split; vm_compute; discriminate.
Defined.

(** X16: where the tracked player is at least half a viewport away from the
    edges of the world in an axis, centering puts it in the middle of the
    screen in that axis; nearer to the left or top edge the camera is 0,
    nearer to the right or bottom edge it is world minus viewport. *)
Theorem centering_policy (g : GameClient) (p : Player.t) :
  myPlayer g = Some p ->
  let g' := centerViewportOnPlayer g in
  let s := worldToScreen g' (Player.x p) (Player.y p) in
  (viewportWidth g / 2 <= Player.x p <= worldWidth g - viewportWidth g / 2 ->
   px s == viewportWidth g / 2) /\
  (viewportHeight g / 2 <= Player.y p <= worldHeight g - viewportHeight g / 2 ->
   py s == viewportHeight g / 2) /\
  (Player.x p <= viewportWidth g / 2 -> cameraX g' == 0) /\
  (Player.y p <= viewportHeight g / 2 -> cameraY g' == 0) /\
  (viewportWidth g <= worldWidth g -> worldWidth g - viewportWidth g / 2 <= Player.x p ->
   cameraX g' == worldWidth g - viewportWidth g) /\
  (viewportHeight g <= worldHeight g -> worldHeight g - viewportHeight g / 2 <= Player.y p ->
   cameraY g' == worldHeight g - viewportHeight g).
Proof.
  intros Hp g' s. unfold s, g'.
  rewrite (centerViewportOnPlayer_tracked g p Hp).
  unfold worldToScreen, updateViewport. cbn.
  pose proof (Qhalf (viewportWidth g)). pose proof (Qhalf (viewportHeight g)).
  set (hw := viewportWidth g / 2) in *. set (hh := viewportHeight g / 2) in *.
  repeat split; intros; minmax_cases; lra.
Qed.

Lemma centering_policy_witness :
  let g := clientAt 800 600 (somePlayer "me" 1000 2040) in
  px (worldToScreen (centerViewportOnPlayer g) 1000 2040) == 400 /\
  cameraY (centerViewportOnPlayer g) == 1448.
Proof.
  intros g.
  destruct (centering_policy g (somePlayer "me" 1000 2040) eq_refl)
    as (Hmid & _ & _ & _ & _ & Hbottom).
  split.
  - rewrite Hmid; [reflexivity|]. split; vm_compute; discriminate.
  - rewrite Hbottom; [reflexivity | |]; vm_compute; discriminate.
Defined.

(** X17: the sprite of a player keeps the aspect ratio of its image and is
    centred on the player's screen position: it is drawn 32 wide and
    [32 * height / width] high, its middle at the screen position (for a
    player facing west after [scale(-1, 1)], at the negated x), and the
    username is written 5 above its top edge. *)
Theorem sprite_geometry
    (player : Player.t) (g : GameClient) (avatar : LoadedAvatar)
    (f : Image.t) (fs : list Image.t) (avatarImage : Image.t) :
  inView player g = true ->
  JsMap.get (Player.avatar player) (avatars g) = Some (Loaded avatar) ->
  byDirection (images avatar) (resolvedDirection player) = Some (f :: fs) ->
  frameAt (f :: fs) (frameIndexOf player) = Some avatarImage ->
  Image.complete avatarImage = true ->
  0 < Image.width avatarImage -> 0 < Image.height avatarImage ->
  let s := worldToScreen g (Player.x player) (Player.y player) in
  let drawn := drawnOps (drawPlayer player g) in
  exists dx dy dh,
    In (drawImage avatarImage dx dy 32 dh) drawn /\
    dh * Image.width avatarImage == 32 * Image.height avatarImage /\
    dy + dh / 2 == py s /\
    (Player.facing player <> "west" -> dx + 32 / 2 == px s) /\
    (Player.facing player = "west" ->
     dx + 32 / 2 == - px s /\ In (scale (-(1)) 1) drawn) /\
    In (fillText (Player.username player) (px s) (dy - 5)) drawn.
Proof.
  intros Hview Hget Hdir Hframe Hcomplete Hw Hh s drawn.
  unfold drawn. rewrite (drawPlayer_steps player g Hview), Hget, Hdir, Hframe, Hcomplete.
  unfold sprite, drawPlayerLabel. rewrite ctxs_app. unfold drawnOps.
  rewrite ctxs_canvas. cbn [Canvas.ops]. fold s.
  set (dh := avatarSize / (Image.width avatarImage / Image.height avatarImage)).
  assert (Hratio : dh * Image.width avatarImage == 32 * Image.height avatarImage).
  { unfold dh, avatarSize. field. split; lra. }
  destruct (String.eqb_spec (Player.facing player) "west") as [Hwest|Hother].
  - exists (- px s - avatarSize / 2), (py s - dh / 2), dh.
    split; [apply in_or_app; right; simpl; tauto|].
    split; [exact Hratio|]. split; [field|].
    split; [congruence|].
    split; [intros _; split; [unfold avatarSize; field | apply in_or_app; right; simpl; tauto]|].
    apply in_or_app; right; simpl; tauto.
  - exists (px s - avatarSize / 2), (py s - dh / 2), dh.
    split; [apply in_or_app; right; simpl; tauto|].
    split; [exact Hratio|]. split; [field|].
    split; [intros _; unfold avatarSize; field|].
    split; [congruence|].
    apply in_or_app; right; simpl; tauto.
Qed.

Lemma sprite_geometry_witness :
  exists dx dy dh,
    In (drawImage (Image.mk "e1" true 32 48) dx dy 32 dh)
       (drawnOps (drawPlayer westward (clientWith (Loaded eastOnly) westward))) /\
    dh * 32 == 32 * 48.
Proof.
  destruct (sprite_geometry westward (clientWith (Loaded eastOnly) westward) eastOnly
              (Image.mk "e0" true 32 48) [Image.mk "e1" true 32 48]
              (Image.mk "e1" true 32 48))
    as (dx & dy & dh & Hin & Hratio & _); try reflexivity.
  exists dx, dy, dh. split; [exact Hin | exact Hratio].
Defined.

(** ** Clicks *)

Lemma Math_round_bounds (q : Q) (n : Z) :
  0 <= q <= inject_Z n -> (0 <= Math_round q <= n)%Z.
Proof.
  intros [Hlo Hhi]. destruct (Math_round_nearest q) as [Hnear1 Hnear2].
  split.
  - assert (H : inject_Z (-1) < inject_Z (Math_round q)).
    { change (inject_Z (-1)) with (-(1)). lra. }
    rewrite <- Zlt_Qlt in H. lia.
  - assert (H : inject_Z (Math_round q) < inject_Z (n + 1)).
    { rewrite inject_Z_plus. change (inject_Z 1) with 1. lra. }
    rewrite <- Zlt_Qlt in H. lia.
Qed.

(** X19: in the world of 2048 by 2048 a click never sends a target outside
    it: every move message that a click adds to those sent carries integers
    between 0 and 2048, and a click adds at most one message. *)
Theorem click_target_in_world (g : GameClient) (event : ClickEvent) :
  worldWidth g == 2048 -> worldHeight g == 2048 ->
  outbox (onClick event g) = outbox g \/
  exists x y,
    outbox (onClick event g) = (outbox g ++ [out_move_to x y])%list /\
    (0 <= x <= 2048)%Z /\ (0 <= y <= 2048)%Z.
Proof.
  intros HW HH. unfold onClick. fold (clickTarget event g).
  destruct (_ && _) eqn:Htest; [|now left].
  apply insideWorld_test in Htest. destruct Htest as [Hx Hy].
  unfold sendMoveCommand. destruct (ws_open g) eqn:Hopen; cbn [negb]; [|now left].
  right. exists (Math_round (px (clickTarget event g))),
                (Math_round (py (clickTarget event g))).
  split; [now apply outbox_ws_send|].
  split; apply Math_round_bounds; change (inject_Z 2048) with 2048; lra.
Qed.

Lemma click_target_in_world_witness :
  let g := with_ws (Some openSocket) nearLeftEdge in
  outbox (onClick (mkClickEvent 410 (641 # 2) 10 10) g) = outbox g \/
  exists x y,
    outbox (onClick (mkClickEvent 410 (641 # 2) 10 10) g)
    = (outbox g ++ [out_move_to x y])%list /\
    (0 <= x <= 2048)%Z /\ (0 <= y <= 2048)%Z.
Proof.
  intros g. apply click_target_in_world; reflexivity.
Defined.

(** ** Runs of the client *)

Lemma onClick_frame event g :
  onClick event g = with_ws (ws (onClick event g)) g.
Proof.
  unfold onClick. destruct (_ && _); [|now destruct g].
  unfold sendMoveCommand. destruct (negb _); [now destruct g|].
  unfold ws_send. destruct (ws g); now destruct g.
Qed.

Lemma onResize_frame iw ih g :
  let g' := onResize iw ih g in
  players g' = players g /\ avatars g' = avatars g /\
  playerEmotes g' = playerEmotes g /\ myPlayer g' = myPlayer g /\
  myPlayerId g' = myPlayerId g /\ ws g' = ws g /\
  worldWidth g' = worldWidth g /\ worldHeight g' = worldHeight g.
Proof.
  cbv zeta. unfold onResize. autorewrite with render. repeat split.
Qed.

Lemma run_app l1 l2 w : run (l1 ++ l2)%list w = run l2 (run l1 w).
Proof. unfold run. now rewrite fold_left_app. Qed.

Lemma clamped_step elapsed input w :
  clamped (this w) -> clamped (this (step elapsed input w)).
Proof.
  intros H. unfold step.
  pose proof (clamped_advance (clock w + Z.of_N elapsed) w H) as Ha.
  destruct input as [m|e|iw ih|].
  - now apply clamped_onmessage.
  - now apply clamped_onClick.
  - apply clamped_onResize.
  - exact Ha.
Qed.

(** X20: the camera stays clamped along every run of the client: whatever
    messages arrive, whatever is clicked, however the window is resized and
    whenever timers fire, [0 <= cameraX <= max(0, worldWidth - viewportWidth)]
    and the same for Y. *)
Theorem camera_clamped_along_runs (inputs : list (N * Input)) (w : World) :
  clamped (this w) -> clamped (this (run inputs w)).
Proof.
  unfold run. revert w.
  induction inputs as [|[elapsed input] inputs IH]; intros w H; simpl.
  - exact H.
  - apply IH. now apply clamped_step.
Qed.

Lemma camera_clamped_along_runs_witness : clamped (this (run session started)).
Proof.
  apply camera_clamped_along_runs.
  unfold clamped. vm_compute. intuition discriminate.
Defined.

Lemma In_keys_set {V : Type} (k k' : string) (v : V) (m : JsMap.t V) :
  In k' (JsMap.keys (JsMap.set k v m)) <-> k' = k \/ In k' (JsMap.keys m).
Proof.
  induction m as [|[k0 v0] m IH]; simpl.
  - intuition congruence.
  - destruct (String.eqb_spec k k0) as [->|Hne]; simpl.
    + intuition congruence.
    + rewrite IH. intuition congruence.
Qed.

Lemma NoDup_keys_set {V : Type} (k : string) (v : V) (m : JsMap.t V) :
  NoDup (JsMap.keys m) -> NoDup (JsMap.keys (JsMap.set k v m)).
Proof.
  induction m as [|[k0 v0] m IH]; intros H; simpl.
  - repeat constructor. intros [].
  - inversion H as [|? ? Hk0 Hm]; subst.
    destruct (String.eqb_spec k k0) as [->|Hne]; simpl.
    + now constructor.
    + constructor; [|now apply IH].
      rewrite In_keys_set. intros [E|Hin]; [congruence | contradiction].
Qed.

Lemma NoDup_keys_setAll {V : Type} (entries : list (string * V)) :
  forall m : JsMap.t V,
    NoDup (JsMap.keys m) -> NoDup (JsMap.keys (JsMap.setAll entries m)).
Proof.
  unfold JsMap.setAll.
  induction entries as [|[k v] entries IH]; intros m H; simpl; [exact H|].
  apply IH. now apply NoDup_keys_set.
Qed.

Lemma NoDup_keys_delete {V : Type} (k : string) (m : JsMap.t V) :
  NoDup (JsMap.keys m) -> NoDup (JsMap.keys (JsMap.delete k m)).
Proof.
  unfold JsMap.delete, JsMap.keys.
  induction m as [|[k0 v0] m IH]; intros H; simpl; [constructor|].
  inversion H as [|? ? Hk0 Hm]; subst.
  destruct (String.eqb k k0); simpl; [now apply IH|].
  constructor; [|now apply IH].
  intros Hin. apply Hk0. apply in_map_iff in Hin. destruct Hin as ([k1 v1] & E & Hin).
  apply filter_In in Hin. simpl in E. subst k1.
  change k0 with (fst (k0, v1)). apply in_map. tauto.
Qed.

Lemma loadAvatarImages_from_unique fuel :
  forall i g r,
    loadAvatarImages_from fuel i g = Some r ->
    NoDup (JsMap.keys (avatars g)) -> NoDup (JsMap.keys (avatars (snd r))).
Proof.
  induction fuel as [|fuel IH]; intros i g r H Hnd; simpl in H; [discriminate|].
  destruct (nth_error (avatars g) i) as [[k a]|].
  - destruct a as [d|l]; simpl in H.
    + apply (IH _ _ _ H). simpl. now apply NoDup_keys_set.
    + inversion H; subst. exact Hnd.
  - inversion H; subst. exact Hnd.
Qed.

Lemma loadAvatarImages_unique g :
  NoDup (JsMap.keys (avatars g)) ->
  NoDup (JsMap.keys (avatars (snd (loadAvatarImages g)))).
Proof.
  destruct (loadAvatarImages_total g) as (r & Hr & ->).
  now apply (loadAvatarImages_from_unique _ _ _ _ Hr).
Qed.

Lemma uniqueKeys_onmessage message w :
  uniqueKeys (this w) -> uniqueKeys (this (onmessage message w)).
Proof.
  intros (Hp & Ha & He). unfold uniqueKeys.
  destruct message as [[|] pid ps avs err | p a | ps | pid | pid kind | action];
    try (repeat split; assumption).
  - destruct (onmessage_join_state pid ps avs err w) as [Hsnd Hstate].
    cbv zeta in Hsnd, Hstate.
    split; [|split].
    + rewrite Hstate. cbn [players with_canvas with_avatars].
      rewrite joined_players. now apply NoDup_keys_setAll.
    + rewrite Hsnd. unfold handleJoinGameSuccess.
      fold (joined pid ps avs (this w)).
      assert (Hj : NoDup (JsMap.keys (avatars (joined pid ps avs (this w))))).
      { unfold joined, centerViewportOnPlayer. cbn.
        destruct (JsMap.get pid _); cbn; now apply NoDup_keys_setAll. }
      pose proof (loadAvatarImages_unique _ Hj) as Hload.
      destruct (loadAvatarImages _) as [[|e] g1]; simpl in Hload |- *; [|exact Hload].
      destruct (myPlayer g1); simpl; [now rewrite render_avatars | exact Hload].
    + rewrite Hstate. cbn [playerEmotes with_canvas with_avatars].
      unfold joined, centerViewportOnPlayer. cbn.
      destruct (JsMap.get pid _); exact He.
  - unfold onmessage. simpl. autorewrite with render. simpl.
    repeat split; try assumption; repeat apply NoDup_keys_set; assumption.
  - unfold onmessage. simpl. rewrite handlePlayersMoved_fold.
    autorewrite with render. rewrite fold_movedStep_players.
    pose proof (movedOnly_fold ps (this w)) as H. unfold movedOnly in H.
    split; [now apply NoDup_keys_setAll|]. rewrite H. now split.
  - unfold onmessage. simpl. unfold handlePlayerLeft.
    autorewrite with render. simpl.
    repeat split; try assumption; now apply NoDup_keys_delete.
  - unfold onmessage. simpl. unfold handlePlayerEmote, startEmoteAnimation.
    destruct (String.eqb kind "jump"); simpl; autorewrite with render; simpl;
      repeat split; try assumption. now apply NoDup_keys_set.
Qed.

Lemma uniqueKeys_expiredOnly g g' :
  expiredOnly g g' -> NoDup (JsMap.keys (playerEmotes g')) ->
  uniqueKeys g -> uniqueKeys g'.
Proof.
  unfold expiredOnly, uniqueKeys. intros E He (Hp & Ha & _).
  rewrite E. now repeat split.
Qed.

Lemma uniqueKeys_fold_fire l :
  forall w, uniqueKeys (this w) -> uniqueKeys (this (fold_left fire l w)).
Proof.
  induction l as [|tm l IH]; intros w H; simpl; [exact H|].
  apply IH. apply (uniqueKeys_expiredOnly (this w)); [apply expiredOnly_fire | | exact H].
  unfold fire. destruct (callback tm). simpl. rewrite render_playerEmotes. simpl.
  apply NoDup_keys_delete. apply H.
Qed.

Lemma uniqueKeys_step elapsed input w :
  uniqueKeys (this w) -> uniqueKeys (this (step elapsed input w)).
Proof.
  intros H. unfold step.
  assert (Ha : uniqueKeys (this (advance (clock w + Z.of_N elapsed) w))).
  { unfold advance. simpl. now apply (uniqueKeys_fold_fire _ (mkWorld (this w) _ _)). }
  destruct input as [m|e|iw ih|].
  - now apply uniqueKeys_onmessage.
  - cbn [this on_this]. rewrite onClick_frame. exact Ha.
  - cbn [this on_this].
    destruct (onResize_frame iw ih (this (advance (clock w + Z.of_N elapsed) w)))
      as (Hp & Hav & He & _).
    unfold uniqueKeys. rewrite Hp, Hav, He. exact Ha.
  - exact Ha.
Qed.

(** X21: the registry, the avatars and the emotes hold each key at most once
    along every run: no handler and no timer ever leaves two entries for one
    id or name. *)
Theorem unique_keys_along_runs (inputs : list (N * Input)) (w : World) :
  uniqueKeys (this w) -> uniqueKeys (this (run inputs w)).
Proof.
  unfold run. revert w.
  induction inputs as [|[elapsed input] inputs IH]; intros w H; simpl.
  - exact H.
  - apply IH. now apply uniqueKeys_step.
Qed.

Lemma unique_keys_along_runs_witness : uniqueKeys (this (run session started)).
Proof.
  apply unique_keys_along_runs.
  unfold uniqueKeys. simpl. repeat split; constructor.
Defined.

Lemma advance_timers_In now w tm :
  In tm (timers (advance now w)) -> In tm (timers w) /\ (now < due tm)%Z.
Proof.
  rewrite advance_timers, filter_In, negb_true_iff, Z.leb_gt. tauto.
Qed.

Lemma emotesTimely_advance now w :
  (clock w <= now)%Z -> emotesTimely w -> emotesTimely (advance now w).
Proof.
  intros Hnow [Hemotes Htimers]. split.
  - intros pid e He.
    pose proof (advance_kept now w pid e He) as Hbefore.
    destruct (Hemotes pid e Hbefore) as (Hshape & Hstart & Htimer).
    assert (Hpending : (now < startTime e + 1500)%Z).
    { destruct (Z.lt_ge_cases now (startTime e + 1500)) as [H|H]; [exact H|].
      assert (Hgone : emoteOf pid (advance now w) = None).
      { apply advance_expired. apply existsb_exists.
        exists (mkTimer (startTime e + 1500) (expireEmote pid)).
        split; [exact Htimer|]. unfold expires. simpl.
        rewrite String.eqb_refl. simpl. apply Z.leb_le. lia. }
      congruence. }
    split; [exact Hshape|]. split; [rewrite advance_clock; lia|].
    rewrite advance_timers. apply filter_In. split; [exact Htimer|].
    simpl. apply negb_true_iff, Z.leb_gt. lia.
  - intros tm Htm. rewrite advance_clock.
    apply advance_timers_In in Htm. destruct Htm as [Hin Hlate].
    specialize (Htimers tm Hin). lia.
Qed.

Lemma emotesTimely_on_this (f : GameClient -> GameClient) w :
  playerEmotes (f (this w)) = playerEmotes (this w) ->
  emotesTimely w -> emotesTimely (on_this f w).
Proof.
  intros Hsame [Hemotes Htimers]. split.
  - intros pid e He. unfold emoteOf in He. simpl in He. rewrite Hsame in He.
    exact (Hemotes pid e He).
  - exact Htimers.
Qed.

Lemma emotesTimely_onmessage message w :
  emotesTimely w -> emotesTimely (onmessage message w).
Proof.
  intros Hw.
  destruct message as [[|] pid ps avs err | p a | ps | pid | pid kind | action];
    try exact Hw.
  - destruct (onmessage_join_state pid ps avs err w) as [_ Hstate].
    cbv zeta in Hstate.
    assert (Hrest : clock (onmessage (join_game true pid ps avs err) w) = clock w /\
                    timers (onmessage (join_game true pid ps avs err) w) = timers w).
    { unfold onmessage, handleServerMessage.
      destruct (handleJoinGameSuccess _ _ _ _); split; reflexivity. }
    destruct Hrest as [Hclock Htm].
    destruct Hw as [Hemotes Htimers]. split.
    + intros q e He. unfold emoteOf in He. rewrite Hstate in He.
      cbn [playerEmotes with_canvas with_avatars] in He.
      assert (Hj : playerEmotes (joined pid ps avs (this w)) = playerEmotes (this w)).
      { unfold joined, centerViewportOnPlayer. cbn. destruct (JsMap.get pid _); reflexivity. }
      rewrite Hj in He. rewrite Hclock, Htm. exact (Hemotes q e He).
    + intros tm. rewrite Hclock, Htm. apply Htimers.
  - apply (emotesTimely_on_this (fun g => snd (handlePlayerJoined p a g)) w) in Hw.
    + exact Hw.
    + unfold handlePlayerJoined. simpl. now autorewrite with render.
  - apply (emotesTimely_on_this (handlePlayersMoved ps) w); [|exact Hw].
    destruct (players_moved_frame ps (this w)) as [_ H]. exact H.
  - destruct Hw as [Hemotes Htimers]. split; [|exact Htimers].
    intros q e He.
    rewrite left_emoteOf in He.
    destruct (String.eqb q pid); [discriminate|].
    exact (Hemotes q e He).
  - unfold onmessage. simpl. unfold handlePlayerEmote, startEmoteAnimation.
    destruct (String.eqb kind "jump").
    + destruct Hw as [Hemotes Htimers]. split.
      * intros q e He. unfold emoteOf in He. simpl in He.
        rewrite render_playerEmotes in He. simpl in He. simpl.
        destruct (String.eqb_spec q pid) as [->|Hne].
        -- rewrite JsMapFacts.get_set_same in He. inversion He; subst. simpl.
           split; [reflexivity|]. split; [lia|]. apply in_or_app. right. now left.
        -- rewrite JsMapFacts.get_set_other in He by assumption.
           destruct (Hemotes q e He) as (Hs & Hc & Hin).
           split; [exact Hs|]. split; [exact Hc|]. apply in_or_app. now left.
      * intros tm Htm. simpl in Htm |- *. apply in_app_or in Htm.
        destruct Htm as [Htm|[<-|[]]]; [now apply Htimers | simpl; lia].
    + apply (emotesTimely_on_this render); [apply render_playerEmotes | exact Hw].
Qed.

Lemma emotesTimely_step elapsed input w :
  emotesTimely w -> emotesTimely (step elapsed input w).
Proof.
  intros H. unfold step.
  assert (Ha : emotesTimely (advance (clock w + Z.of_N elapsed) w))
    by (apply emotesTimely_advance; [lia | exact H]).
  destruct input as [m|e|iw ih|].
  - now apply emotesTimely_onmessage.
  - apply emotesTimely_on_this; [|exact Ha]. now rewrite onClick_frame.
  - apply emotesTimely_on_this; [|exact Ha].
    now destruct (onResize_frame iw ih (this (advance (clock w + Z.of_N elapsed) w)))
      as (_ & _ & He & _).
  - exact Ha.
Qed.

(** X22: along every run no emote outlives its duration: an emote that is
    recorded is a jump of duration 1500 that began no more than 1500 ago and
    whose removal is still set, and every timer is due within the next
    1500. *)
Theorem emotes_timely_along_runs (inputs : list (N * Input)) (w : World) :
  emotesTimely w -> emotesTimely (run inputs w).
Proof.
  unfold run. revert w.
  induction inputs as [|[elapsed input] inputs IH]; intros w H; simpl.
  - exact H.
  - apply IH. now apply emotesTimely_step.
Qed.

Lemma emotes_timely_along_runs_witness :
  emotesTimely (run (firstn 3 session) started).
Proof.
  apply emotes_timely_along_runs.
  split.
  - intros pid e He. discriminate He.
  - intros tm [].
Defined.

(** X23: [myPlayer] stays the registry's entry for [myPlayerId] through every
    turn of the event loop (timers, clicks, resizes and messages) except a
    [player_joined] or [player_left] that names the local player. *)
Theorem local_player_synced_step (elapsed : N) (input : Input) (w : World) :
  localRefSynced (this w) ->
  namesLocalPlayer input (this w) = false ->
  localRefSynced (this (step elapsed input w)).
Proof.
  intros Hsync Hinput. unfold step.
  set (wa := advance (clock w + Z.of_N elapsed) w).
  assert (Hframe : expiredOnly (this w) (this wa)) by apply advance_expiredOnly.
  unfold expiredOnly in Hframe.
  assert (Ha : localRefSynced (this wa)).
  { unfold localRefSynced. rewrite Hframe. exact Hsync. }
  assert (Hid : myPlayerId (this wa) = myPlayerId (this w)) by now rewrite Hframe.
  destruct input as [m|e|iw ih|].
  - apply localRefSynced_onmessage; [exact Ha|].
    destruct m as [s pid ps avs err | p a | ps | pid | pid kind | action]; try exact I;
      unfold namesLocalPlayer, isMyPlayerId in *; now rewrite Hid.
  - cbn [this on_this]. unfold localRefSynced. rewrite onClick_frame. exact Ha.
  - cbn [this on_this].
    destruct (onResize_frame iw ih (this wa)) as (Hp & _ & _ & Hm & Hi & _).
    unfold localRefSynced. rewrite Hp, Hm, Hi. exact Ha.
  - exact Ha.
Qed.

Lemma local_player_synced_step_witness :
  localRefSynced
    (this (step 300 (received (players_moved [("me", somePlayer "me" 100 100)])) welcomed)).
Proof.
  apply local_player_synced_step; reflexivity.
Defined.

Lemma render_canvas_size g :
  Canvas.width (canvas (render g)) = Canvas.width (canvas g) /\
  Canvas.height (canvas (render g)) = Canvas.height (canvas g).
Proof.
  assert (H : exists l, render g = ctxs l g).
  { unfold render. destruct (worldImage g) as [img|]; [|now exists []].
    rewrite !ctx_ctxs. set (g2 := ctxs _ (ctxs _ g)).
    destruct (drawWorldBoundaries_appends g2) as [lb Eb].
    destruct (drawPlayers_appends (drawWorldBoundaries g2)) as [lp Ep].
    rewrite Ep, Eb. unfold g2. rewrite !ctxs_app. now eexists. }
  destruct H as [l ->]. rewrite ctxs_canvas. split; reflexivity.
Qed.

(** X24: a resize sets the canvas and the viewport to the size of the window
    and clamps the camera where it is, without centering on the player again;
    the same resize a second time leaves viewport and camera as they are. *)
Theorem resize_clamps_in_place (g : GameClient) (innerWidth innerHeight : N) :
  let g1 := onResize innerWidth innerHeight g in
  let g2 := onResize innerWidth innerHeight g1 in
  viewportWidth g1 = inject_Z (Z.of_N innerWidth) /\
  viewportHeight g1 = inject_Z (Z.of_N innerHeight) /\
  Canvas.width (canvas g1) = viewportWidth g1 /\
  Canvas.height (canvas g1) = viewportHeight g1 /\
  cameraX g1 = clamp (cameraX g) (worldWidth g - inject_Z (Z.of_N innerWidth)) /\
  cameraY g1 = clamp (cameraY g) (worldHeight g - inject_Z (Z.of_N innerHeight)) /\
  viewportWidth g2 = viewportWidth g1 /\ viewportHeight g2 = viewportHeight g1 /\
  cameraX g2 = cameraX g1 /\ cameraY g2 = cameraY g1.
Proof.
  cbv zeta.
  assert (Hfields : forall g0,
            let g' := onResize innerWidth innerHeight g0 in
            viewportWidth g' = inject_Z (Z.of_N innerWidth) /\
            viewportHeight g' = inject_Z (Z.of_N innerHeight) /\
            Canvas.width (canvas g') = inject_Z (Z.of_N innerWidth) /\
            Canvas.height (canvas g') = inject_Z (Z.of_N innerHeight) /\
            cameraX g' = clamp (cameraX g0) (worldWidth g0 - inject_Z (Z.of_N innerWidth)) /\
            cameraY g' = clamp (cameraY g0) (worldHeight g0 - inject_Z (Z.of_N innerHeight)) /\
            worldWidth g' = worldWidth g0 /\ worldHeight g' = worldHeight g0).
  { intros g0. cbv zeta. unfold onResize.
    destruct (render_canvas_size (updateViewport (sizeCanvas innerWidth innerHeight g0)))
      as [Hcw Hch].
    autorewrite with render. rewrite Hcw, Hch. repeat split. }
  destruct (Hfields g) as (Hvw & Hvh & Hcw & Hch & Hx & Hy & Hww & Hwh).
  destruct (Hfields (onResize innerWidth innerHeight g))
    as (Hvw2 & Hvh2 & _ & _ & Hx2 & Hy2 & _).
  rewrite Hvw2, Hvh2, Hx2, Hy2, Hcw, Hch, Hvw, Hvh, Hx, Hy, Hww, Hwh.
  repeat split; apply clamp_idempotent.
Qed.
